(** * cf-image-resize: the request-resolution pipeline of [src/index.ts]

    A shallow embedding of the Worker's [fetch] entry point and of
    [handleRequest]: option parsing, source validation, cache-key
    construction and the edge / R2 / image-resizing waterfall.

    JavaScript values are modelled as follows.
    - Strings are [string]s (sequences of 8-bit characters; this covers the
      ASCII text of the handler and the binary strings [atob] returns).
    - [undefined] and [null] are [None].
    - The mutable object [resizeOptions] is an insertion-ordered list of
      properties whose values may be [undefined].
    - [URLSearchParams] is the ordered list of decoded name/value pairs.
    - The edge cache and the R2 bucket are finite maps keyed by strings; the
      handler threads a [World] that also records every effect in order. *)

From Stdlib Require Import ZArith NArith Ascii String List Bool Lia.
From stdpp Require Import base option list strings pretty gmap.

Local Open Scope Z_scope.

(** ** Strings *)

Module Str.

(** The double-quote character, for the messages that contain one. *)
Definition dquote : string := String (ascii_of_nat 34) "".

Definition is_upper (c : ascii) : bool :=
  let n := nat_of_ascii c in (65 <=? n)%nat && (n <=? 90)%nat.

Definition lower (c : ascii) : ascii :=
  if is_upper c then ascii_of_nat (nat_of_ascii c + 32) else c.

Fixpoint lowercase (s : string) : string :=
  match s with
  | EmptyString => EmptyString
  | String c s' => String (lower c) (lowercase s')
  end.

(** [prefix p s]: [s] starts with [p]. *)
Fixpoint prefix (p s : string) : bool :=
  match p, s with
  | EmptyString, _ => true
  | String a p', String b s' => Ascii.eqb a b && prefix p' s'
  | String _ _, EmptyString => false
  end.

(** [contains p s]: [p] occurs somewhere in [s]; the meaning of
    [/p/.test(s)] for a pattern [p] of literal characters. *)
Fixpoint contains (p s : string) : bool :=
  prefix p s ||
  match s with
  | EmptyString => false
  | String _ s' => contains p s'
  end.

(** [ends_with suf s]: some tail of [s] equals [suf]; the meaning of
    [/suf$/.test(s)] for literal [suf] (no [m] flag: [$] is the end of
    the input). *)
Fixpoint ends_with (suf s : string) : bool :=
  String.eqb suf s ||
  match s with
  | EmptyString => false
  | String _ s' => ends_with suf s'
  end.

(** The same under the [i] flag, for a pattern written in lower case. *)
Definition ends_with_ci (suf s : string) : bool := ends_with suf (lowercase s).

(** [Array.prototype.join]. *)
Fixpoint join (sep : string) (l : list string) : string :=
  match l with
  | [] => ""
  | [x] => x
  | x :: l' => x +:+ sep +:+ join sep l'
  end.

(** [c] does not occur in [s]. *)
Fixpoint free_of (c : ascii) (s : string) : bool :=
  match s with
  | EmptyString => true
  | String a s' => negb (Ascii.eqb a c) && free_of c s'
  end.

End Str.

(** ** [atob]: forgiving base64 decoding

    The algorithm of the HTML standard: ASCII whitespace is removed; when
    the length is a multiple of four, one or two trailing [=] are removed;
    a remaining length of 1 modulo 4, or any character outside the base64
    alphabet, is a failure ([atob] throws); otherwise each character
    contributes six bits and the left-over bits are discarded. *)

Module Base64.

Definition is_space (c : ascii) : bool :=
  let n := nat_of_ascii c in
  ((n =? 9) || (n =? 10) || (n =? 12) || (n =? 13) || (n =? 32))%nat.

Fixpoint strip_space (s : string) : list ascii :=
  match s with
  | EmptyString => []
  | String c s' => if is_space c then strip_space s' else c :: strip_space s'
  end.

Definition sextet (c : ascii) : option N :=
  let n := N_of_ascii c in
  (if (65 <=? n) && (n <=? 90) then Some (n - 65)
   else if (97 <=? n) && (n <=? 122) then Some (n - 71)
   else if (48 <=? n) && (n <=? 57) then Some (n + 4)
   else if n =? 43 then Some 62
   else if n =? 47 then Some 63
   else None)%N.

Definition is_pad (c : ascii) : bool := (nat_of_ascii c =? 61)%nat.

(** Removes one or two trailing [=] when the length is a multiple of 4. *)
Definition strip_padding (l : list ascii) : list ascii :=
  if (length l mod 4 =? 0)%nat then
    match rev l with
    | a :: b :: r => if is_pad a then if is_pad b then rev r else rev (b :: r) else l
    | _ => l
    end
  else l.

Fixpoint sextets (l : list ascii) : option (list N) :=
  match l with
  | [] => Some []
  | c :: l' =>
      match sextet c, sextets l' with
      | Some v, Some vs => Some (v :: vs)
      | _, _ => None
      end
  end.

Definition chr (n : N) : ascii := ascii_of_N (n mod 256).

(** Four sextets give three bytes; a final group of two gives one byte and
    a final group of three gives two. *)
Fixpoint bytes_of (fuel : nat) (vs : list N) : string :=
  match fuel with
  | O => ""
  | S fuel' =>
      match vs with
      | a :: b :: c :: d :: r =>
          let w := (a * 262144 + b * 4096 + c * 64 + d)%N in
          String (chr (w / 65536)) (String (chr (w / 256)) (String (chr w)
            (bytes_of fuel' r)))
      | [a; b; c] =>
          let w := (a * 4096 + b * 64 + c)%N in
          String (chr (w / 1024)) (String (chr (w / 4)) "")
      | [a; b] => String (chr ((a * 64 + b) / 16)) ""
      | _ => ""
      end
  end.

Definition atob (s : string) : option string :=
  let l := strip_padding (strip_space s) in
  if (length l mod 4 =? 1)%nat then None
  else
    match sextets l with
    | Some vs => Some (bytes_of (S (length vs)) vs)
    | None => None
    end.

End Base64.

(** ** [URLSearchParams], [Headers] and plain objects *)

(** The decoded query string, in order; duplicates are kept. *)
Definition SearchParams := list (string * string).

Fixpoint sp_get (name : string) (sp : SearchParams) : option string :=
  match sp with
  | [] => None
  | (k, v) :: sp' => if String.eqb k name then Some v else sp_get name sp'
  end.

Definition sp_has (name : string) (sp : SearchParams) : bool :=
  match sp_get name sp with Some _ => true | None => false end.

(** Header lists; names are compared without regard to case and the values
    of a repeated header are joined with a comma and a space. *)
Definition Headers := list (string * string).

Definition header_values (name : string) (h : Headers) : list string :=
  map snd (List.filter (fun kv => String.eqb (Str.lowercase (fst kv)) (Str.lowercase name)) h).

Definition headers_get (name : string) (h : Headers) : option string :=
  match header_values name h with
  | [] => None
  | vs => Some (Str.join ", " vs)
  end.

(** A JavaScript object with string-or-undefined properties, in insertion
    order. Assigning to an existing property keeps its position. *)
Definition Obj := list (string * option string).

Fixpoint obj_set (k : string) (v : option string) (o : Obj) : Obj :=
  match o with
  | [] => [(k, v)]
  | (k', v') :: o' =>
      if String.eqb k' k then (k, v) :: o' else (k', v') :: obj_set k v o'
  end.

(** Own-property test. *)
Fixpoint obj_has (k : string) (o : Obj) : bool :=
  match o with
  | [] => false
  | (k', _) :: o' => String.eqb k' k || obj_has k o'
  end.

(** Property read [o.k]: [undefined] when absent or set to [undefined]. *)
Fixpoint obj_get (k : string) (o : Obj) : option string :=
  match o with
  | [] => None
  | (k', v) :: o' => if String.eqb k' k then v else obj_get k o'
  end.

(** [x || undefined] for [x] a string or null. *)
Definition or_undefined (x : option string) : option string :=
  match x with
  | Some EmptyString => None
  | Some s => Some s
  | None => None
  end.

(** Truthiness of a string-or-undefined value. *)
Definition truthy (x : option string) : bool :=
  match x with
  | Some EmptyString => false
  | Some _ => true
  | None => false
  end.

(** ** A model of [new URL(s)] without a base

    Only what the handler reads is produced: [hostname] and [pathname].
    Leading and trailing control characters and spaces are dropped, and
    every tab and line break inside the input. The scheme must be present;
    for the special schemes the slashes after the colon are skipped,
    credentials and port are removed from the authority (the port must be
    decimal and at most 65535), the host is lower-cased and must be
    non-empty, and an empty path is [/]; the host of any other scheme is
    kept as written. Dot-segment removal, percent-encoding and the parsing
    of numeric or international host names are not modelled. The handler
    below is parametric in the parser; this one instantiates it. *)

Record ParsedURL := { hostname : string; pathname : string }.

Module Url.

Definition code (c : ascii) : nat := nat_of_ascii c.

Definition is_alpha (c : ascii) : bool :=
  let n := code (Str.lower c) in (97 <=? n)%nat && (n <=? 122)%nat.

Definition is_digit (c : ascii) : bool :=
  let n := code c in (48 <=? n)%nat && (n <=? 57)%nat.

Definition is_scheme_char (c : ascii) : bool :=
  is_alpha c || is_digit c ||
  ((code c =? 43) || (code c =? 45) || (code c =? 46))%nat.

(** [/] or backslash. *)
Definition is_slash (c : ascii) : bool := ((code c =? 47) || (code c =? 92))%nat.

(** [?] or [#]. *)
Definition ends_path (c : ascii) : bool := ((code c =? 63) || (code c =? 35))%nat.

Definition ends_authority (c : ascii) : bool := is_slash c || ends_path c.

(** The longest prefix whose characters all fail [stop], and the rest. *)
Fixpoint break (stop : ascii -> bool) (s : string) : string * string :=
  match s with
  | EmptyString => (EmptyString, EmptyString)
  | String c s' =>
      if stop c then (EmptyString, s)
      else let (a, b) := break stop s' in (String c a, b)
  end.

Fixpoint drop_while (p : ascii -> bool) (s : string) : string :=
  match s with
  | EmptyString => EmptyString
  | String c s' => if p c then drop_while p s' else s
  end.

(** The part of [s] after its last occurrence of character code [n]
    ([None] when there is none), and the part before it. *)
Fixpoint split_last (n : nat) (s : string) : option (string * string) :=
  match s with
  | EmptyString => None
  | String c s' =>
      match split_last n s' with
      | Some (a, b) => Some (String c a, b)
      | None => if (code c =? n)%nat then Some (EmptyString, s') else None
      end
  end.

Fixpoint all_digits (s : string) : bool :=
  match s with
  | EmptyString => true
  | String c s' => is_digit c && all_digits s'
  end.

Definition special (scheme : string) : bool :=
  String.eqb scheme "http" || String.eqb scheme "https" ||
  String.eqb scheme "ws" || String.eqb scheme "wss" || String.eqb scheme "ftp".

(** The value of a string of decimal digits. *)
Fixpoint decimal (acc : N) (s : string) : N :=
  match s with
  | EmptyString => acc
  | String c s' => decimal (acc * 10 + (N_of_ascii c - 48))%N s'
  end.

Definition port_ok (port : string) : bool :=
  all_digits port && (decimal 0 port <=? 65535)%N.

(** Host of an authority: credentials (up to the last [@]) and the port
    (after the last [:]) removed; a port that is not decimal or is above
    65535 is a failure. *)
Definition host_of (authority : string) : option string :=
  let hostport :=
    match split_last 64 authority with
    | Some (_, hp) => hp
    | None => authority
    end in
  match split_last 58 hostport with
  | Some (h, port) => if port_ok port then Some h else None
  | None => Some hostport
  end.

(** A C0 control character or a space. *)
Definition is_blank (c : ascii) : bool := (code c <=? 32)%nat.

Definition is_tab_or_newline (c : ascii) : bool :=
  ((code c =? 9) || (code c =? 10) || (code c =? 13))%nat.

Fixpoint all_blank (s : string) : bool :=
  match s with
  | EmptyString => true
  | String c s' => is_blank c && all_blank s'
  end.

Fixpoint drop_trailing_blanks (s : string) : string :=
  match s with
  | EmptyString => EmptyString
  | String c s' => if all_blank s then EmptyString else String c (drop_trailing_blanks s')
  end.

Fixpoint remove (p : ascii -> bool) (s : string) : string :=
  match s with
  | EmptyString => EmptyString
  | String c s' => if p c then remove p s' else String c (remove p s')
  end.

Definition clean_input (s : string) : string :=
  remove is_tab_or_newline (drop_trailing_blanks (drop_while is_blank s)).

Definition parse_clean (s : string) : option ParsedURL :=
  match s with
  | EmptyString => None
  | String c _ =>
      if is_alpha c then
        match break (fun c => negb (is_scheme_char c)) s with
        | (scheme, String colon rest) =>
            if (code colon =? 58)%nat then
              if special (Str.lowercase scheme) then
                let (authority, tail) := break ends_authority (drop_while is_slash rest) in
                match host_of authority with
                | Some EmptyString => None
                | Some h =>
                    let path := fst (break ends_path tail) in
                    Some {| hostname := Str.lowercase h;
                            pathname := if String.eqb path "" then "/" else path |}
                | None => None
                end
              else if Str.prefix "//" rest then
                let (authority, tail) := break ends_authority (String.substring 2 (String.length rest) rest) in
                match host_of authority with
                | Some h => Some {| hostname := h; pathname := fst (break ends_path tail) |}
                | None => None
                end
              else Some {| hostname := ""; pathname := fst (break ends_path rest) |}
            else None
        | _ => None
        end
      else None
  end.

Definition parse (s : string) : option ParsedURL := parse_clean (clean_input s).

End Url.

(** ** Responses, exceptions and the world the handler runs in *)

Inductive Body :=
| BodyNull
| BodyText (s : string)
| BodyBuffer (b : list Byte.byte).

Record Response := {
  status : Z;
  statusText : string;
  resp_headers : Headers;
  body : Body
}.

(** [new Response(body, { status })]. *)
Definition text_response (msg : string) (st : Z) : Response :=
  {| status := st; statusText := ""; resp_headers := []; body := BodyText msg |}.

(** What the handler can throw. The first two come from the platform
    ([atob] and [new URL]); their message texts stand for the platform's. *)
Inductive exn :=
| InvalidCharacterError
| InvalidURL
| Error (msg : string).

Definition message (e : exn) : string :=
  match e with
  | InvalidCharacterError => "Invalid character"
  | InvalidURL => "Invalid URL"
  | Error msg => msg
  end.

Record Request := {
  (** [request.url], which is also what [url.toString()] gives back *)
  url_href : string;
  (** [url.searchParams] *)
  searchParams : SearchParams;
  req_headers : Headers
}.

(** Of [Env] only [CACHE_DURATION] is read as a value; [CACHE_BUCKET] is the
    [bucket] of the world. [CACHE_DURATION] is taken to be a whole number of
    seconds below 10^21 in magnitude, the range in which a JavaScript number
    prints as its plain decimal digits. *)
Record Env := { CACHE_DURATION : option Z }.

(** A completed call of the image-resizing [fetch], with the bytes that
    [arrayBuffer()] reads from it; a call that throws is [None] below. The
    body read of line 102 is taken to succeed. *)
Record Fetched := { fetched_status : Z; fetched_body : list Byte.byte }.

Inductive Event :=
| EdgeMatch (key : string)
| ConsoleLog (msg : string)
| BucketGet (key : string)
| ImageFetch (target : string) (hdrs : Headers) (image : Obj)
| BucketPut (key : string) (data : list Byte.byte)
| EdgePut (key : string) (r : Response).

(** The edge cache ([caches.default]), the R2 bucket and the effects so
    far, oldest first. A write handed to [ctx.waitUntil] is recorded, and
    takes effect, where it is scheduled. Lookups are taken to resolve: a
    read that the platform rejects (lines 78, 83, 102 are awaited outside
    any [try]) would leave [handleRequest] as an exception and is outside
    this model. What the edge cache holds later is the cache's business
    (expiry under the stored [cache-control], eviction): statements about a
    later request say what they assume of the world it runs in. *)
Record World := {
  edge : gmap string Response;
  bucket : gmap string (list Byte.byte);
  events : list Event
}.

Definition emit (e : Event) (w : World) : World :=
  {| edge := edge w; bucket := bucket w; events := events w ++ [e] |}.

(** [ctx.waitUntil(env.CACHE_BUCKET.put(key, data))] *)
Definition bucket_put (key : string) (data : list Byte.byte) (w : World) : World :=
  {| edge := edge w; bucket := <[key := data]> (bucket w);
     events := events w ++ [BucketPut key data] |}.

(** [ctx.waitUntil(cache.put(key, r.clone()))] *)
Definition edge_put (key : string) (r : Response) (w : World) : World :=
  {| edge := <[key := r]> (edge w); bucket := bucket w;
     events := events w ++ [EdgePut key r] |}.

Inductive Completion :=
| Returned (r : Response)
| Thrown (e : exn).

(** ** Lines 24-46: the option bag and the negotiated type *)

Definition copy_params (sp : SearchParams) : Obj :=
  let o : Obj := [] in
  let o := if sp_has "fit" sp then obj_set "fit" (or_undefined (sp_get "fit" sp)) o else o in
  let o := if sp_has "w" sp then obj_set "width" (or_undefined (sp_get "w" sp)) o else o in
  let o := if sp_has "h" sp then obj_set "height" (or_undefined (sp_get "h" sp)) o else o in
  let o := if sp_has "q" sp then obj_set "quality" (or_undefined (sp_get "q" sp)) o else o in
  o.

(** [url.searchParams.get(name) == 'true'] *)
Definition loosely_equals (x : option string) (s : string) : bool :=
  match x with
  | Some v => String.eqb v s
  | None => false
  end.

(** The condition under which line 35 assigns [fit = 'cover']. *)
Definition alias_fires (sp : SearchParams) (o : Obj) : bool :=
  negb (truthy (obj_get "fit" o)) && loosely_equals (sp_get "enlarge" sp) "true".

Definition enlarge_alias (sp : SearchParams) (o : Obj) : Obj :=
  if negb (truthy (obj_get "fit" o)) then
    if loosely_equals (sp_get "enlarge" sp) "true" then obj_set "fit" (Some "cover") o
    else o
  else o.

(** [request.headers.get("Accept") || ''] *)
Definition accept_of (h : Headers) : string :=
  match headers_get "Accept" h with
  | Some EmptyString => ""
  | Some a => a
  | None => ""
  end.

(** Lines 40-46, on the pair ([resizeOptions], [type]). *)
Definition negotiate (accept : string) (st : Obj * string) : Obj * string :=
  if Str.contains "image/avif" accept then (obj_set "format" (Some "avif") (fst st), "avif")
  else if Str.contains "image/webp" accept then (obj_set "format" (Some "webp") (fst st), "webp")
  else st.

(** [resizeOptions] and [type] as they stand after line 46. *)
Definition parse_options (req : Request) : Obj * string :=
  let o := enlarge_alias (searchParams req) (copy_params (searchParams req)) in
  negotiate (accept_of (req_headers req)) (o, "jpeg").

Definition resizeOptions (req : Request) : Obj := fst (parse_options req).

(** ** Lines 56-73: extension tests, type override and the cache key *)

(** [/\.(jpe?g|png|gif|webp)$/i.test(pathname)] *)
Definition allowed_extension (path : string) : bool :=
  Str.ends_with_ci ".jpg" path || Str.ends_with_ci ".jpeg" path ||
  Str.ends_with_ci ".png" path || Str.ends_with_ci ".gif" path ||
  Str.ends_with_ci ".webp" path.

(** Lines 68-69. *)
Definition override_type (path : string) (type : string) : string :=
  let type := if Str.ends_with_ci ".png" path then "png" else type in
  let type := if Str.ends_with_ci ".gif" path then "gif" else type in
  type.

(** A value inside a template literal: [undefined] prints as its name. *)
Definition template (v : option string) : string :=
  match v with
  | Some s => s
  | None => "undefined"
  end.

Definition entry (kv : string * option string) : string :=
  fst kv +:+ ":" +:+ template (snd kv).

(** [Object.entries(resizeOptions).map(...).join('-')] *)
Definition optionsKey (o : Obj) : string := Str.join "-" (map entry o).

Definition cacheKey (imageURL : string) (o : Obj) : string :=
  ("test-" +:+ imageURL) +:+ optionsKey o.

(** ** Lines 113-122: the response for an image *)

Definition maxAge : Z := 180 * 24 * 60 * 60.

(** The [Headers] of lines 114-120, listed as a [Headers] object lists
    them: sorted by name. *)
Definition image_headers (env : Env) (type : string) : Headers :=
  [ ("access-control-allow-origin", "*");
    ("cache-control", "public, max-age=" +:+ pretty (default maxAge (CACHE_DURATION env)));
    ("content-security-policy", "default-src 'none'; navigate-to 'none'; form-action 'none'");
    ("content-type", "image/" +:+ type) ].

Definition image_response (env : Env) (type : string) (image : list Byte.byte) : Response :=
  {| status := 200; statusText := ""; resp_headers := image_headers env type;
     body := BodyBuffer image |}.

(** Truthiness of [image]: [undefined] is falsy, an [ArrayBuffer] is an
    object and so truthy whatever its length. *)
Definition buffer_truthy (image : option (list Byte.byte)) : bool :=
  match image with
  | Some _ => true
  | None => false
  end.

(** ** A monad for the handler: world passing with early exit

    A computation either goes on with a value or leaves the handler, by
    [return] or by [throw]; the world is threaded through both. *)

Definition M (A : Type) : Type := World -> (A + Completion) * World.

Definition ret {A} (a : A) : M A := fun w => (inl a, w).

Definition bind {A B} (m : M A) (k : A -> M B) : M B :=
  fun w =>
    match m w with
    | (inl a, w') => k a w'
    | (inr c, w') => (inr c, w')
    end.

Definition leave {A} (c : Completion) : M A := fun w => (inr c, w).

Definition effect (f : World -> World) : M unit := fun w => (inl tt, f w).

Definition read {A} (f : World -> A) : M A := fun w => (inl (f w), w).

Definition console_log (msg : string) : M unit := effect (emit (ConsoleLog msg)).

Notation "x <- m ;; k" := (bind m (fun x => k))
  (at level 100, m at next level, right associativity).
Notation "m ;;; k" := (bind m (fun _ => k))
  (at level 100, right associativity).

(** ** Lines 49-65: the source *)

Inductive Checked :=
| Rejected (r : Response)
| Raised (e : exn)
| Accepted (imageURL : string) (u : ParsedURL).

Definition missing_image : Response :=
  text_response ("Missing " +:+ Str.dquote +:+ "image" +:+ Str.dquote +:+ " value") 400.

Definition invalid_image : Response :=
  text_response ("Invalid " +:+ Str.dquote +:+ "image" +:+ Str.dquote +:+ " value") 400.

Definition disallowed_extension : Response := text_response "Disallowed file extension" 400.

Definition invalid_host : Response := text_response "Invalid url for source images" 403.

Definition not_found : Response :=
  {| status := 404; statusText := "Not Found"; resp_headers := []; body := BodyNull |}.

(** The body of the [try] block of lines 55-62. *)
Definition try_block (imageURL : string) (u : ParsedURL) : Checked :=
  if negb (allowed_extension (pathname u)) then Rejected disallowed_extension
  else if negb (String.eqb (hostname u) "s3.medialoot.com") then Rejected invalid_host
  else Accepted imageURL u.

(** Its [catch] clause, lines 63-65. *)
Definition catch_block (c : Checked) : Checked :=
  match c with
  | Raised _ => Rejected invalid_image
  | _ => c
  end.

Section Handler.

(** [new URL(s)]: [None] when the constructor throws. *)
Variable url_parse : string -> option ParsedURL.

(** The image-resizing [fetch(imageRequest, { cf: { image } })], as a
    function of the target, the forwarded headers and the options;
    [None] when it throws. *)
Variable image_fetch : string -> Headers -> Obj -> option Fetched.

Definition check_source (sp : SearchParams) : Checked :=
  match sp_get "src" sp with
  | None => Rejected missing_image
  | Some imageURLBase64 =>
      if negb (truthy (Some imageURLBase64)) then Rejected missing_image
      else
        match Base64.atob imageURLBase64 with
        | None => Raised InvalidCharacterError
        | Some imageURL =>
            match url_parse imageURL with
            | None => Raised InvalidURL
            | Some u => catch_block (try_block imageURL u)
            end
        end
  end.

(** Lines 84-108: [image] after the R2 lookup gave [image]. *)
Definition fetch_image (request : Request) (imageURL : string) (options : Obj)
    (key : string) (image : option (list Byte.byte)) : M (option (list Byte.byte)) :=
  if negb (buffer_truthy image) then
    console_log ("R2 miss for: " +:+ key +:+ ".") ;;;
    effect (emit (ImageFetch imageURL (req_headers request) options)) ;;;
    match image_fetch imageURL (req_headers request) options with
    | None => leave (Returned not_found)
    | Some cfImageRes =>
        console_log ("Images fetch response: " +:+ pretty (fetched_status cfImageRes)) ;;;
        let image := Some (fetched_body cfImageRes) in
        (if buffer_truthy image
         then effect (bucket_put key (fetched_body cfImageRes))
         else ret tt) ;;;
        ret image
    end
  else ret image.

Definition handleRequest (request : Request) (env : Env) : M Response :=
  let '(options, type) := parse_options request in
  match check_source (searchParams request) with
  | Rejected r => leave (Returned r)
  | Raised e => leave (Thrown e)
  | Accepted imageURL u =>
      let type := override_type (pathname u) type in
      let key := cacheKey imageURL options in
      effect (emit (EdgeMatch (url_href request))) ;;;
      response <- read (fun w => edge w !! url_href request) ;;
      match response with
      | Some r => leave (Returned r)
      | None =>
          console_log ("Cache miss for: " +:+ key +:+ ".") ;;;
          effect (emit (BucketGet key)) ;;;
          image <- read (fun w => bucket w !! key) ;;
          image <- fetch_image request imageURL options key image ;;
          match image with
          | None => leave (Thrown (Error "Unable to fetch image"))
          | Some data =>
              let response := image_response env type data in
              effect (edge_put (url_href request) response) ;;;
              ret response
          end
      end
  end.

Definition run (request : Request) (env : Env) (w : World) : Completion * World :=
  match handleRequest request env w with
  | (inl r, w') => (Returned r, w')
  | (inr c, w') => (c, w')
  end.

(** The exported [fetch]: anything thrown becomes a 500 with the message. *)
Definition fetch (request : Request) (env : Env) (w : World) : Response * World :=
  match run request env w with
  | (Returned r, w') => (r, w')
  | (Thrown e, w') => (text_response (message e) 500, w')
  end.

End Handler.

(** The type served for a request whose source parsed to [u]. *)
Definition served_type (request : Request) (u : ParsedURL) : string :=
  override_type (pathname u) (snd (parse_options request)).

(** ** Observations on a run *)

Definition is_bucket_put (e : Event) : bool :=
  match e with BucketPut _ _ => true | _ => false end.

Definition is_image_fetch (e : Event) : bool :=
  match e with ImageFetch _ _ _ => true | _ => false end.

Definition is_edge_put (e : Event) : bool :=
  match e with EdgePut _ _ => true | _ => false end.

(** The events a run added to the world it started from. *)
Definition new_events (w w' : World) : list Event :=
  drop (length (events w)) (events w').

Definition initial : World := {| edge := ∅; bucket := ∅; events := [] |}.

(** ** Notions used in the statements *)

(** The property names the handler can create. *)
Definition option_keys : list string := ["fit"; "width"; "height"; "quality"; "format"].

(** The format the [Accept] header selects, if any (lines 40-46). *)
Definition negotiated (accept : string) : option string :=
  if Str.contains "image/avif" accept then Some "avif"
  else if Str.contains "image/webp" accept then Some "webp"
  else None.

(** [r] is empty or begins with the delimiter [c]. *)
Definition delimited (c : ascii) (r : string) : Prop :=
  r = "" \/ exists r', r = String c r'.

(** [join] as a head followed by a delimited rest. *)
Definition join_rest (sep : string) (l : list string) : string :=
  match l with
  | [] => ""
  | _ => sep +:+ Str.join sep l
  end.

(** An option value that serializes without ambiguity: [undefined], or a
    string with no [-] in it other than the text [undefined] prints as. *)
Definition plain_value (v : option string) : bool :=
  match v with
  | Some s => Str.free_of "-" s && negb (String.eqb s "undefined")
  | None => true
  end.

Definition plain (o : Obj) : Prop := Forall (fun kv => plain_value (snd kv) = true) o.

(** An entry whose key is one of the handler's and whose value is plain. *)
Definition clean (kv : string * option string) : Prop :=
  In (fst kv) option_keys /\ plain_value (snd kv) = true.

(** An option value that can be told apart from the source it follows in
    the key as well: plain, and with no [.] in it. *)
Definition tidy_value (v : option string) : bool :=
  plain_value v &&
  match v with
  | Some s => Str.free_of "." s
  | None => true
  end.

Definition tidy (o : Obj) : Prop := Forall (fun kv => tidy_value (snd kv) = true) o.

(** The extensions of line 56 without their dot, in lower case. *)
Definition extension_letters : list string := ["jpg"; "jpeg"; "png"; "gif"; "webp"].

(** [m] occurs in [s]: what a regular expression of literal characters
    tests. *)
Definition occurs (m s : string) : Prop := exists a b, s = a +:+ m +:+ b.

(** The five formats. *)
Definition formats : list string := ["avif"; "webp"; "jpeg"; "png"; "gif"].

(** ** Sample requests, upstreams and worlds *)

Module Sample.

(** base64 of [https://s3.medialoot.com/a.png] and of the same with [.jpg]. *)
Definition src_png : string := "aHR0cHM6Ly9zMy5tZWRpYWxvb3QuY29tL2EucG5n".
Definition src_jpg : string := "aHR0cHM6Ly9zMy5tZWRpYWxvb3QuY29tL2EuanBn".

Definition url_png : string := "https://s3.medialoot.com/a.png".
Definition url_jpg : string := "https://s3.medialoot.com/a.jpg".

Definition href : string := "https://img.example.com/?q".

Definition request (sp : SearchParams) (accept : string) : Request :=
  {| url_href := href; searchParams := sp; req_headers := [("accept", accept)] |}.

Definition env : Env := {| CACHE_DURATION := None |}.

Definition pixels : list Byte.byte := [Byte.x89; Byte.x50; Byte.x4e; Byte.x47].

(** Upstreams: one that answers 200 with a body, one that answers 200 with
    no bytes, one that answers 502 with an error page, one that throws. *)
Definition upstream_ok : string -> Headers -> Obj -> option Fetched :=
  fun _ _ _ => Some {| fetched_status := 200; fetched_body := pixels |}.

Definition upstream_empty : string -> Headers -> Obj -> option Fetched :=
  fun _ _ _ => Some {| fetched_status := 200; fetched_body := [] |}.

Definition upstream_bad_gateway : string -> Headers -> Obj -> option Fetched :=
  fun _ _ _ => Some {| fetched_status := 502; fetched_body := [Byte.x3c; Byte.x68; Byte.x31; Byte.x3e] |}.

Definition upstream_down : string -> Headers -> Obj -> option Fetched :=
  fun _ _ _ => None.

Definition cached : Response :=
  {| status := 200; statusText := ""; resp_headers := [("content-type", "image/webp")];
     body := BodyBuffer [Byte.x01] |}.

Definition edge_warm : World :=
  {| edge := {[ href := cached ]}; bucket := ∅; events := [] |}.

Definition bucket_warm (key : string) : World :=
  {| edge := ∅; bucket := {[ key := pixels ]}; events := [] |}.

End Sample.

(** The property names of the option bag in the order lines 29-46 create
    them: a parameter that is present gives its property its place, the
    alias appends [fit] when no [fit] parameter made one, and the
    negotiated [format] comes last. *)
Definition key_order (request : Request) : list string :=
  let sp := searchParams request in
  (if sp_has "fit" sp then ["fit"] else []) ++
  (if sp_has "w" sp then ["width"] else []) ++
  (if sp_has "h" sp then ["height"] else []) ++
  (if sp_has "q" sp then ["quality"] else []) ++
  (if negb (sp_has "fit" sp) && loosely_equals (sp_get "enlarge" sp) "true"
   then ["fit"] else []) ++
  (match negotiated (accept_of (req_headers request)) with
   | Some _ => ["format"]
   | None => []
   end).

(** More sample sources and requests. *)
Module Cases.

(** base64 of [https://s3.medialoot.com/a.bmp], of
    [https://evil.example.com/a.png] and of [https://evil.example.com/a.bmp]. *)
Definition src_bmp : string := "aHR0cHM6Ly9zMy5tZWRpYWxvb3QuY29tL2EuYm1w".
Definition src_foreign_png : string := "aHR0cHM6Ly9ldmlsLmV4YW1wbGUuY29tL2EucG5n".
Definition src_foreign_bmp : string := "aHR0cHM6Ly9ldmlsLmV4YW1wbGUuY29tL2EuYm1w".

Definition jpg : ParsedURL := {| hostname := "s3.medialoot.com"; pathname := "/a.jpg" |}.

(** A request for the same image and width as [resized], under another
    request URL (one more query parameter, which the handler ignores) and
    another [Accept] that negotiates the same format. *)
Definition resized : Request :=
  Sample.request [("w", "300"); ("src", Sample.src_jpg)] "image/webp".

Definition resized_again : Request :=
  {| url_href := "https://img.example.com/?q&utm=mail";
     searchParams := [("w", "300"); ("src", Sample.src_jpg); ("utm", "mail")];
     req_headers := [("Accept", "text/html,image/webp,*/*")] |}.

(** The same URL as [resized], sent by a client that accepts no modern
    format and with another cache duration configured. *)
Definition resized_plain : Request :=
  Sample.request [("w", "300"); ("src", Sample.src_jpg)] "*/*".

Definition env_hour : Env := {| CACHE_DURATION := Some 3600 |}.

(** base64 of [https://s3.medialoot.com/a.jpg?], of
    [https://s3.medialoot.com/a.jpg?width:1] and of
    [https://s3.medialoot.com/a.jpgwidth:1.jpg]. *)
Definition src_query : string := "aHR0cHM6Ly9zMy5tZWRpYWxvb3QuY29tL2EuanBnPw==".
Definition src_query_width : string := "aHR0cHM6Ly9zMy5tZWRpYWxvb3QuY29tL2EuanBnP3dpZHRoOjE=".
Definition src_long_name : string := "aHR0cHM6Ly9zMy5tZWRpYWxvb3QuY29tL2EuanBnd2lkdGg6MS5qcGc=".

End Cases.

Example atob_example :
  Base64.atob "aHR0cHM6Ly9zMy5tZWRpYWxvb3QuY29tL2EucG5n" = Some "https://s3.medialoot.com/a.png".
Proof. vm_compute. reflexivity. Qed.

Example parse_example :
  Url.parse "https://S3.medialoot.com/dir/a.PNG?x=1#f"
  = Some {| hostname := "s3.medialoot.com"; pathname := "/dir/a.PNG" |}.
Proof. vm_compute. reflexivity. Qed.

Example parse_relative : Url.parse "/dir/a.png" = None.
Proof. vm_compute. reflexivity. Qed.

Example parse_words : Url.parse "not a url" = None.
Proof. vm_compute. reflexivity. Qed.

(** * Properties *)

(** ** Strings and serialization *)

Section StringFacts.

Lemma append_nil (t : string) : "" +:+ t = t.
Proof. reflexivity. Qed.

Lemma append_cons (c : ascii) (s t : string) : String c s +:+ t = String c (s +:+ t).
Proof. reflexivity. Qed.

Lemma append_empty_r (s : string) : s +:+ "" = s.
Proof.
  induction s as [|c s IH]; [reflexivity |].
  now rewrite append_cons, IH.
Qed.

Lemma append_assoc (a b c : string) : (a +:+ b) +:+ c = a +:+ (b +:+ c).
Proof.
  induction a as [|x a IH]; [reflexivity |].
  now rewrite !append_cons, IH.
Qed.

Lemma append_cancel_l (a b c : string) : a +:+ b = a +:+ c -> b = c.
Proof.
  induction a as [|x a IH]; intros H; [exact H |].
  rewrite !append_cons in H. injection H as H. now apply IH.
Qed.

Lemma append_length (a b : string) :
  String.length (a +:+ b) = (String.length a + String.length b)%nat.
Proof.
  induction a as [|x a IH]; [reflexivity |].
  rewrite append_cons. simpl. now rewrite IH.
Qed.

Lemma append_cancel_r (a b c : string) : a +:+ c = b +:+ c -> a = b.
Proof.
  revert b. induction a as [|x a IH]; intros [|y b] H.
  - reflexivity.
  - apply (f_equal String.length) in H.
    rewrite ?append_cons, ?append_nil in H. simpl in H.
    rewrite append_length in H. lia.
  - apply (f_equal String.length) in H.
    rewrite ?append_cons, ?append_nil in H. simpl in H.
    rewrite append_length in H. lia.
  - rewrite !append_cons in H. injection H as -> H. f_equal. now apply IH.
Qed.

(** A delimiter-free word followed by a delimited rest splits in one way. *)
Lemma split_unique (c : ascii) (x y r1 r2 : string) :
  Str.free_of c x = true -> Str.free_of c y = true ->
  delimited c r1 -> delimited c r2 ->
  x +:+ r1 = y +:+ r2 -> x = y /\ r1 = r2.
Proof.
  revert y. induction x as [|a x IH]; intros [|b y] Hx Hy D1 D2 H;
    rewrite ?append_cons, ?append_nil in H; simpl in Hx, Hy.
  - auto.
  - destruct D1 as [-> | [r' ->]]; [discriminate |].
    injection H as <- _. rewrite Ascii.eqb_refl in Hy. discriminate.
  - destruct D2 as [-> | [r' ->]]; [discriminate |].
    injection H as -> _. rewrite Ascii.eqb_refl in Hx. discriminate.
  - injection H as -> H.
    apply andb_prop in Hx as [_ Hx]. apply andb_prop in Hy as [_ Hy].
    destruct (IH y Hx Hy D1 D2 H) as [-> ->]. auto.
Qed.

Lemma free_of_append (c : ascii) (a b : string) :
  Str.free_of c (a +:+ b) = Str.free_of c a && Str.free_of c b.
Proof.
  induction a as [|x a IH]; [reflexivity |].
  rewrite append_cons. simpl. rewrite IH. now rewrite andb_assoc.
Qed.

Lemma join_cons (sep x : string) (l : list string) :
  Str.join sep (x :: l) = x +:+ join_rest sep l.
Proof.
  destruct l as [|y l].
  - unfold join_rest. now rewrite append_empty_r.
  - reflexivity.
Qed.

(** Joining words that are non-empty and free of the separator character
    loses nothing. *)
Lemma join_inj (c : ascii) (l1 l2 : list string) :
  Forall (fun s => Str.free_of c s = true /\ s <> "") l1 ->
  Forall (fun s => Str.free_of c s = true /\ s <> "") l2 ->
  Str.join (String c "") l1 = Str.join (String c "") l2 -> l1 = l2.
Proof.
  revert l2. induction l1 as [|x l1 IH]; intros [|y l2] F1 F2 H.
  - reflexivity.
  - rewrite join_cons in H. inversion F2 as [|? ? [_ Hy] _]; subst.
    destruct y; [congruence | discriminate].
  - rewrite join_cons in H. inversion F1 as [|? ? [_ Hx] _]; subst.
    destruct x; [congruence | discriminate].
  - rewrite !join_cons in H.
    inversion F1 as [|? ? [Hx _] F1']; inversion F2 as [|? ? [Hy _] F2']; subst.
    assert (D : forall l, delimited c (join_rest (String c "") l)).
    { intros [|z l]; [left; reflexivity | right; eexists; reflexivity]. }
    destruct (split_unique c x y _ _ Hx Hy (D l1) (D l2) H) as [-> Hr].
    f_equal. destruct l1 as [|a l1], l2 as [|b l2]; try discriminate; [reflexivity |].
    unfold join_rest in Hr. rewrite !append_cons, !append_nil in Hr.
    injection Hr as Hr. now apply IH.
Qed.

Lemma ends_with_length (suf s : string) :
  Str.ends_with suf s = true -> (String.length suf <= String.length s)%nat.
Proof.
  induction s as [|c s IH]; simpl; intros H.
  - rewrite orb_false_r in H. apply String.eqb_eq in H. subst. simpl. lia.
  - apply orb_prop in H as [H | H].
    + apply String.eqb_eq in H. subst. simpl. lia.
    + specialize (IH H). lia.
Qed.

(** A string has one suffix of each length. *)
Lemma ends_with_unique (a b s : string) :
  String.length a = String.length b ->
  Str.ends_with a s = true -> Str.ends_with b s = true -> a = b.
Proof.
  intros L. induction s as [|c s IH]; simpl; intros Ha Hb.
  - rewrite orb_false_r in *. apply String.eqb_eq in Ha, Hb. congruence.
  - apply orb_prop in Ha as [Ha | Ha]; apply orb_prop in Hb as [Hb | Hb].
    + apply String.eqb_eq in Ha, Hb. congruence.
    + apply String.eqb_eq in Ha. apply ends_with_length in Hb. subst a. simpl in L. lia.
    + apply String.eqb_eq in Hb. apply ends_with_length in Ha. subst b. simpl in L. lia.
    + auto.
Qed.

Lemma png_not_gif (path : string) :
  Str.ends_with_ci ".png" path = true -> Str.ends_with_ci ".gif" path = false.
Proof.
  unfold Str.ends_with_ci. intros H.
  destruct (Str.ends_with ".gif" (Str.lowercase path)) eqn:G; [| reflexivity].
  discriminate (ends_with_unique ".png" ".gif" _ eq_refl H G).
Qed.

End StringFacts.

(** ** Objects *)

Section ObjectFacts.

Lemma obj_get_set (k k' : string) (v : option string) (o : Obj) :
  obj_get k (obj_set k' v o) = if String.eqb k' k then v else obj_get k o.
Proof.
  induction o as [|[k0 v0] o IH]; simpl; [reflexivity |].
  destruct (String.eqb k0 k') eqn:E0; simpl.
  - apply String.eqb_eq in E0. subst k0.
    destruct (String.eqb k' k); reflexivity.
  - rewrite IH. destruct (String.eqb k0 k) eqn:E1; [| reflexivity].
    apply String.eqb_eq in E1. subst k0. now rewrite String.eqb_sym, E0.
Qed.

Lemma obj_set_keys (k k' : string) (v : option string) (o : Obj) :
  In k (map fst (obj_set k' v o)) <-> k = k' \/ In k (map fst o).
Proof.
  induction o as [|[k0 v0] o IH]; simpl.
  - intuition.
  - destruct (String.eqb k0 k') eqn:E0; simpl.
    + apply String.eqb_eq in E0. subst k0. intuition.
    + rewrite IH. intuition.
Qed.

Lemma obj_set_nodup (k : string) (v : option string) (o : Obj) :
  NoDup (map fst o) -> NoDup (map fst (obj_set k v o)).
Proof.
  induction o as [|[k0 v0] o IH]; simpl; intros N.
  - apply NoDup_singleton.
  - apply NoDup_cons in N as [Hn N'].
    destruct (String.eqb k0 k) eqn:E0; simpl.
    + apply String.eqb_eq in E0. subst k0. now apply NoDup_cons.
    + apply NoDup_cons. split; [| now apply IH].
      rewrite list_elem_of_In, obj_set_keys. intros [-> | H].
      * rewrite String.eqb_refl in E0. discriminate.
      * apply Hn. now apply list_elem_of_In.
Qed.

(** With distinct keys, an entry of the object is what a property read
    gives. *)
Lemma entry_obj_get (k : string) (v : option string) (o : Obj) :
  NoDup (map fst o) -> In (k, v) o -> obj_get k o = v.
Proof.
  induction o as [|[k0 v0] o IH]; simpl; intros N H; [contradiction |].
  apply NoDup_cons in N as [Hn N'].
  destruct H as [H | H].
  - injection H as -> ->. now rewrite String.eqb_refl.
  - destruct (String.eqb k0 k) eqn:E0.
    + apply String.eqb_eq in E0. subst k0. exfalso. apply Hn.
      apply list_elem_of_In. apply (in_map fst) in H. exact H.
    + now apply IH.
Qed.

End ObjectFacts.

(** ** The option bag *)

Section OptionFacts.

Lemma truthy_or_undefined (x : option string) : truthy (or_undefined x) = truthy x.
Proof. destruct x as [[|c s]|]; reflexivity. Qed.

Lemma or_undefined_some (x : option string) (v : string) :
  or_undefined x = Some v <-> x = Some v /\ v <> "".
Proof.
  destruct x as [[|c s]|]; simpl; split.
  - discriminate.
  - intros [H Hv]. injection H as <-. contradiction.
  - intros H. injection H as <-. split; [reflexivity | discriminate].
  - intros [H _]. exact H.
  - discriminate.
  - intros [H _]. discriminate.
Qed.

Lemma truthy_false (x : option string) :
  truthy x = false <-> x = None \/ x = Some "".
Proof.
  destruct x as [[|c s]|]; simpl; split; auto; try discriminate.
  intros [H | H]; discriminate.
Qed.

Lemma loosely_equals_true (x : option string) (s : string) :
  loosely_equals x s = true <-> x = Some s.
Proof.
  destruct x as [v|]; simpl; [| split; discriminate].
  rewrite String.eqb_eq. split; congruence.
Qed.

Ltac by_params sp :=
  unfold copy_params, sp_has;
  destruct (sp_get "fit" sp), (sp_get "w" sp), (sp_get "h" sp), (sp_get "q" sp).

Lemma copy_params_fit sp : obj_get "fit" (copy_params sp) = or_undefined (sp_get "fit" sp).
Proof. by_params sp; reflexivity. Qed.

Lemma copy_params_width sp : obj_get "width" (copy_params sp) = or_undefined (sp_get "w" sp).
Proof. by_params sp; reflexivity. Qed.

Lemma copy_params_height sp : obj_get "height" (copy_params sp) = or_undefined (sp_get "h" sp).
Proof. by_params sp; reflexivity. Qed.

Lemma copy_params_quality sp : obj_get "quality" (copy_params sp) = or_undefined (sp_get "q" sp).
Proof. by_params sp; reflexivity. Qed.

Lemma copy_params_format sp : obj_get "format" (copy_params sp) = None.
Proof. by_params sp; reflexivity. Qed.

Lemma alias_fires_params sp :
  alias_fires sp (copy_params sp)
  = negb (truthy (sp_get "fit" sp)) && loosely_equals (sp_get "enlarge" sp) "true".
Proof. unfold alias_fires. now rewrite copy_params_fit, truthy_or_undefined. Qed.

Lemma enlarge_alias_fires sp o :
  enlarge_alias sp o = if alias_fires sp o then obj_set "fit" (Some "cover") o else o.
Proof.
  unfold enlarge_alias, alias_fires.
  destruct (negb (truthy (obj_get "fit" o))), (loosely_equals (sp_get "enlarge" sp) "true");
    reflexivity.
Qed.

Lemma resizeOptions_eq req :
  resizeOptions req =
  let o := enlarge_alias (searchParams req) (copy_params (searchParams req)) in
  match negotiated (accept_of (req_headers req)) with
  | Some f => obj_set "format" (Some f) o
  | None => o
  end.
Proof.
  unfold resizeOptions, parse_options, negotiate, negotiated.
  destruct (Str.contains "image/avif" _); [reflexivity |].
  destruct (Str.contains "image/webp" _); reflexivity.
Qed.

(** A property other than [format] is what lines 29-36 made it. *)
Lemma options_get_param req k :
  String.eqb "format" k = false ->
  obj_get k (resizeOptions req)
  = obj_get k (enlarge_alias (searchParams req) (copy_params (searchParams req))).
Proof.
  intros Hk. rewrite resizeOptions_eq. cbv zeta.
  destruct (negotiated _); [| reflexivity].
  now rewrite obj_get_set, Hk.
Qed.

Lemma options_width req :
  obj_get "width" (resizeOptions req) = or_undefined (sp_get "w" (searchParams req)).
Proof.
  rewrite options_get_param by reflexivity. rewrite enlarge_alias_fires.
  destruct (alias_fires _ _); [rewrite obj_get_set; simpl |]; apply copy_params_width.
Qed.

Lemma options_height req :
  obj_get "height" (resizeOptions req) = or_undefined (sp_get "h" (searchParams req)).
Proof.
  rewrite options_get_param by reflexivity. rewrite enlarge_alias_fires.
  destruct (alias_fires _ _); [rewrite obj_get_set; simpl |]; apply copy_params_height.
Qed.

Lemma options_quality req :
  obj_get "quality" (resizeOptions req) = or_undefined (sp_get "q" (searchParams req)).
Proof.
  rewrite options_get_param by reflexivity. rewrite enlarge_alias_fires.
  destruct (alias_fires _ _); [rewrite obj_get_set; simpl |]; apply copy_params_quality.
Qed.

Lemma options_fit req :
  obj_get "fit" (resizeOptions req)
  = if alias_fires (searchParams req) (copy_params (searchParams req))
    then Some "cover" else or_undefined (sp_get "fit" (searchParams req)).
Proof.
  rewrite options_get_param by reflexivity. rewrite enlarge_alias_fires.
  destruct (alias_fires _ _); [now rewrite obj_get_set | apply copy_params_fit].
Qed.

Lemma options_format req :
  obj_get "format" (resizeOptions req) = negotiated (accept_of (req_headers req)).
Proof.
  rewrite resizeOptions_eq. cbv zeta.
  destruct (negotiated _) as [f|]; [now rewrite obj_get_set |].
  rewrite enlarge_alias_fires.
  destruct (alias_fires _ _); [rewrite obj_get_set; simpl |]; apply copy_params_format.
Qed.

Lemma copy_params_nodup sp : NoDup (map fst (copy_params sp)).
Proof. by_params sp; repeat apply obj_set_nodup; apply NoDup_nil_2. Qed.

Lemma copy_params_keys sp k : In k (map fst (copy_params sp)) -> In k option_keys.
Proof. by_params sp; simpl; tauto. Qed.

Lemma resizeOptions_nodup req : NoDup (map fst (resizeOptions req)).
Proof.
  rewrite resizeOptions_eq, enlarge_alias_fires. cbv zeta.
  destruct (negotiated _), (alias_fires _ _);
    repeat apply obj_set_nodup; apply copy_params_nodup.
Qed.

Lemma resizeOptions_keys req k :
  In k (map fst (resizeOptions req)) -> In k option_keys.
Proof.
  rewrite resizeOptions_eq, enlarge_alias_fires. cbv zeta.
  destruct (negotiated _), (alias_fires _ _); rewrite ?obj_set_keys;
    intros H; repeat (destruct H as [-> | H]; [simpl; tauto |]);
    eapply copy_params_keys; exact H.
Qed.

Lemma resizeOptions_names (request : Request) :
  map fst (resizeOptions request) = key_order request.
Proof.
  rewrite resizeOptions_eq. unfold key_order, enlarge_alias, copy_params, sp_has.
  cbv zeta.
  destruct (sp_get "fit" (searchParams request)) as [[|c s]|];
    destruct (sp_get "w" (searchParams request)),
             (sp_get "h" (searchParams request)),
             (sp_get "q" (searchParams request)),
             (loosely_equals (sp_get "enlarge" (searchParams request)) "true"),
             (negotiated (accept_of (req_headers request)));
    reflexivity.
Qed.

Lemma obj_has_names (k : string) (o : Obj) :
  obj_has k o = true <-> In k (map fst o).
Proof.
  induction o as [|[k0 v0] o IH]; simpl; [split; [discriminate | contradiction] |].
  rewrite orb_true_iff, String.eqb_eq, IH. reflexivity.
Qed.

End OptionFacts.

(** ** The paths through [handleRequest] *)

Section RunFacts.

Variable url_parse : string -> option ParsedURL.
Variable image_fetch : string -> Headers -> Obj -> option Fetched.
Variables (request : Request) (env : Env) (imageURL : string) (u : ParsedURL).

Hypothesis valid : check_source url_parse (searchParams request) = Accepted imageURL u.

Let href := url_href request.
Let options := resizeOptions request.
Let key := cacheKey imageURL options.
Let type := served_type request u.

Ltac go :=
  repeat (progress (cbv delta [bind effect read leave ret console_log emit edge_put bucket_put];
                    cbv beta; cbn [edge bucket events fst snd buffer_truthy negb])).

Ltac step_handler :=
  unfold run, handleRequest, fetch_image, served_type, resizeOptions in *;
  destruct (parse_options request) as [o t]; rewrite valid;
  cbn [fst snd] in *; go.

Lemma run_edge_hit (w : World) (r : Response) :
  edge w !! href = Some r ->
  run url_parse image_fetch request env w
  = (Returned r,
     {| edge := edge w; bucket := bucket w; events := events w ++ [EdgeMatch href] |}).
Proof.
  subst href options key type. intros Hit. step_handler.
  now rewrite Hit.
Qed.

Lemma run_bucket_hit (w : World) (data : list Byte.byte) :
  edge w !! href = None -> bucket w !! key = Some data ->
  run url_parse image_fetch request env w
  = (Returned (image_response env type data),
     {| edge := <[href := image_response env type data]> (edge w);
        bucket := bucket w;
        events := events w ++
          [EdgeMatch href; ConsoleLog ("Cache miss for: " +:+ key +:+ ".");
           BucketGet key; EdgePut href (image_response env type data)] |}).
Proof.
  subst href options key type. intros Miss Hit. step_handler.
  rewrite Miss. go. rewrite Hit. go.
  now rewrite <- !app_assoc.
Qed.

Lemma run_fetch_threw (w : World) :
  edge w !! href = None -> bucket w !! key = None ->
  image_fetch imageURL (req_headers request) options = None ->
  run url_parse image_fetch request env w
  = (Returned not_found,
     {| edge := edge w; bucket := bucket w;
        events := events w ++
          [EdgeMatch href; ConsoleLog ("Cache miss for: " +:+ key +:+ ".");
           BucketGet key; ConsoleLog ("R2 miss for: " +:+ key +:+ ".");
           ImageFetch imageURL (req_headers request) options] |}).
Proof.
  subst href options key type. intros Miss Miss' Threw. step_handler.
  rewrite Miss. go. rewrite Miss'. go. rewrite Threw. go.
  now rewrite <- !app_assoc.
Qed.

Lemma run_fetch_completed (w : World) (res : Fetched) :
  edge w !! href = None -> bucket w !! key = None ->
  image_fetch imageURL (req_headers request) options = Some res ->
  run url_parse image_fetch request env w
  = (Returned (image_response env type (fetched_body res)),
     {| edge := <[href := image_response env type (fetched_body res)]> (edge w);
        bucket := <[key := fetched_body res]> (bucket w);
        events := events w ++
          [EdgeMatch href; ConsoleLog ("Cache miss for: " +:+ key +:+ ".");
           BucketGet key; ConsoleLog ("R2 miss for: " +:+ key +:+ ".");
           ImageFetch imageURL (req_headers request) options;
           ConsoleLog ("Images fetch response: " +:+ pretty (fetched_status res));
           BucketPut key (fetched_body res);
           EdgePut href (image_response env type (fetched_body res))] |}).
Proof.
  subst href options key type. intros Miss Miss' Done. step_handler.
  rewrite Miss. go. rewrite Miss'. go. rewrite Done. go.
  now rewrite <- !app_assoc.
Qed.

End RunFacts.

Lemma new_events_app (w : World) (e : gmap string Response)
    (b : gmap string (list Byte.byte)) (l : list Event) :
  new_events w {| edge := e; bucket := b; events := events w ++ l |} = l.
Proof. unfold new_events. cbn [events]. apply drop_app_length. Qed.

Lemma content_type_of_image (env : Env) (type : string) (data : list Byte.byte) :
  headers_get "content-type" (resp_headers (image_response env type data))
  = Some ("image/" +:+ type).
Proof. reflexivity. Qed.

Lemma fetch_of_run url_parse image_fetch request env w r w' :
  run url_parse image_fetch request env w = (Returned r, w') ->
  fetch url_parse image_fetch request env w = (r, w').
Proof. unfold fetch. now intros ->. Qed.

(** ** Source validation *)

(** Whatever [atob] or [new URL] throws leaves [handleRequest] as an
    exception: both calls stand before the [try] block. *)
Lemma invalid_source_throws url_parse image_fetch request env w s :
  sp_get "src" (searchParams request) = Some s -> s <> "" ->
  Base64.atob s = None \/
  (exists d, Base64.atob s = Some d /\ url_parse d = None) ->
  exists e, run url_parse image_fetch request env w = (Thrown e, w).
Proof.
  intros Hs Hne Hbad. unfold run, handleRequest.
  destruct (parse_options request) as [o t].
  unfold check_source. rewrite Hs.
  assert (truthy (Some s) = true) as -> by (destruct s; [contradiction | reflexivity]).
  cbn [negb]. destruct Hbad as [-> | (d & -> & ->)]; eexists; reflexivity.
Qed.

(** C1 (code defect). A [src] that is not base64, and a [src] that decodes
    to text that is no absolute URL, are both answered with status 500 and
    the exception's message: the [catch] clause that answers 400 does not
    cover [atob] and [new URL]. *)
Theorem invalid_source_is_500 :
  Base64.atob "!!!" = None /\
  fetch Url.parse Sample.upstream_ok (Sample.request [("src", "!!!")] "") Sample.env initial
  = (text_response "Invalid character" 500, initial) /\
  Base64.atob "bm90IGEgdXJs" = Some "not a url" /\
  Url.parse "not a url" = None /\
  fetch Url.parse Sample.upstream_ok (Sample.request [("src", "bm90IGEgdXJs")] "") Sample.env initial
  = (text_response "Invalid URL" 500, initial).
Proof. repeat split; vm_compute; reflexivity. Qed.

(** ** The waterfall *)

(** C6. For a request that passes validation: on an edge hit (the edge
    cache is asked first, under the request URL) the cached response is
    returned as it is and the lookup is the only effect; on an edge miss and
    an R2 hit (asked under the cache key) the stored bytes are the body,
    nothing is fetched and the only write is the edge one. *)
Theorem waterfall_first_hit_wins url_parse image_fetch request env imageURL u w
    (valid : check_source url_parse (searchParams request) = Accepted imageURL u) :
  let href := url_href request in
  let key := cacheKey imageURL (resizeOptions request) in
  let run := fetch url_parse image_fetch request env w in
  (forall r, edge w !! href = Some r ->
     run = (r, emit (EdgeMatch href) w) /\
     new_events w (snd run) = [EdgeMatch href]) /\
  (forall data, edge w !! href = None -> bucket w !! key = Some data ->
     let response := image_response env (served_type request u) data in
     fst run = response /\
     body (fst run) = BodyBuffer data /\
     new_events w (snd run)
     = [EdgeMatch href; ConsoleLog ("Cache miss for: " +:+ key +:+ ".");
        BucketGet key; EdgePut href response] /\
     existsb is_image_fetch (new_events w (snd run)) = false /\
     bucket (snd run) = bucket w).
Proof.
  cbv zeta. split.
  - intros r Hit.
    rewrite (fetch_of_run _ _ _ _ _ _ _ (run_edge_hit _ image_fetch _ env _ _ valid w r Hit)).
    split; [reflexivity |]. cbn [snd]. apply new_events_app.
  - intros data Miss Hit.
    rewrite (fetch_of_run _ _ _ _ _ _ _
               (run_bucket_hit _ image_fetch _ env _ _ valid w data Miss Hit)).
    cbn [fst snd bucket]. rewrite new_events_app. repeat split; reflexivity.
Qed.

Lemma waterfall_first_hit_wins_witness :
  let request := Sample.request [("src", Sample.src_png)] "image/avif" in
  let key := cacheKey Sample.url_png (resizeOptions request) in
  fetch Url.parse Sample.upstream_down request Sample.env Sample.edge_warm
  = (Sample.cached, emit (EdgeMatch Sample.href) Sample.edge_warm) /\
  fst (fetch Url.parse Sample.upstream_down request Sample.env (Sample.bucket_warm key))
  = image_response Sample.env "png" Sample.pixels.
Proof.
  cbv zeta. split.
  - refine (proj1 (proj1 (waterfall_first_hit_wins Url.parse Sample.upstream_down
      (Sample.request [("src", Sample.src_png)] "image/avif") Sample.env Sample.url_png
      {| hostname := "s3.medialoot.com"; pathname := "/a.png" |} Sample.edge_warm _)
      Sample.cached _)); vm_compute; reflexivity.
  - refine (proj1 (proj2 (waterfall_first_hit_wins Url.parse Sample.upstream_down
      (Sample.request [("src", Sample.src_png)] "image/avif") Sample.env Sample.url_png
      {| hostname := "s3.medialoot.com"; pathname := "/a.png" |} _ _)
      Sample.pixels _ _)); vm_compute; reflexivity.
Defined.

(** C7. When the image-resizing fetch throws, the answer is 404 and
    nothing is written to R2. *)
Theorem fetch_failure_is_404 url_parse image_fetch request env imageURL u w
    (valid : check_source url_parse (searchParams request) = Accepted imageURL u)
    (edge_miss : edge w !! url_href request = None)
    (bucket_miss : bucket w !! cacheKey imageURL (resizeOptions request) = None)
    (threw : image_fetch imageURL (req_headers request) (resizeOptions request) = None) :
  let run := fetch url_parse image_fetch request env w in
  fst run = not_found /\
  status (fst run) = 404 /\
  existsb is_bucket_put (new_events w (snd run)) = false /\
  bucket (snd run) = bucket w.
Proof.
  cbv zeta.
  rewrite (fetch_of_run _ _ _ _ _ _ _
             (run_fetch_threw _ _ _ env _ _ valid w edge_miss bucket_miss threw)).
  cbn [fst snd bucket]. rewrite new_events_app. repeat split; reflexivity.
Qed.

Lemma fetch_failure_is_404_witness :
  status (fst (fetch Url.parse Sample.upstream_down
                 (Sample.request [("w", "300"); ("src", Sample.src_jpg)] "image/webp")
                 Sample.env initial)) = 404.
Proof.
  refine (proj1 (proj2 (fetch_failure_is_404 Url.parse Sample.upstream_down
    (Sample.request [("w", "300"); ("src", Sample.src_jpg)] "image/webp") Sample.env
    Sample.url_jpg {| hostname := "s3.medialoot.com"; pathname := "/a.jpg" |}
    initial _ _ _ _))); vm_compute; reflexivity.
Defined.

(** C9. Whatever status a completed image-resizing fetch carries, its body
    is written to R2 under the cache key and served with status 200. *)
Theorem fetched_body_is_stored_and_served url_parse image_fetch request env imageURL u w res
    (valid : check_source url_parse (searchParams request) = Accepted imageURL u)
    (edge_miss : edge w !! url_href request = None)
    (bucket_miss : bucket w !! cacheKey imageURL (resizeOptions request) = None)
    (completed : image_fetch imageURL (req_headers request) (resizeOptions request) = Some res) :
  let key := cacheKey imageURL (resizeOptions request) in
  let run := fetch url_parse image_fetch request env w in
  status (fst run) = 200 /\
  body (fst run) = BodyBuffer (fetched_body res) /\
  In (BucketPut key (fetched_body res)) (new_events w (snd run)) /\
  bucket (snd run) !! key = Some (fetched_body res).
Proof.
  cbv zeta.
  rewrite (fetch_of_run _ _ _ _ _ _ _
             (run_fetch_completed _ _ _ env _ _ valid w res edge_miss bucket_miss completed)).
  cbn [fst snd bucket]. rewrite new_events_app. repeat split.
  - simpl. tauto.
  - apply lookup_insert_eq.
Qed.

Lemma fetched_body_is_stored_and_served_witness :
  let request := Sample.request [("w", "300"); ("src", Sample.src_jpg)] "image/webp" in
  let run := fetch Url.parse Sample.upstream_bad_gateway request Sample.env initial in
  status (fst run) = 200 /\
  body (fst run) = BodyBuffer [Byte.x3c; Byte.x68; Byte.x31; Byte.x3e] /\
  bucket (snd run) !! "test-https://s3.medialoot.com/a.jpgwidth:300-format:webp"
  = Some [Byte.x3c; Byte.x68; Byte.x31; Byte.x3e].
Proof.
  cbv zeta.
  pose proof (fetched_body_is_stored_and_served Url.parse Sample.upstream_bad_gateway
    (Sample.request [("w", "300"); ("src", Sample.src_jpg)] "image/webp") Sample.env
    Sample.url_jpg {| hostname := "s3.medialoot.com"; pathname := "/a.jpg" |}
    initial {| fetched_status := 502; fetched_body := [Byte.x3c; Byte.x68; Byte.x31; Byte.x3e] |}
    ltac:(vm_compute; reflexivity) ltac:(vm_compute; reflexivity)
    ltac:(vm_compute; reflexivity) ltac:(vm_compute; reflexivity)) as (H1 & H2 & _ & H4).
  split; [exact H1 | split; [exact H2 | exact H4]].
Defined.

(** C3 (code defect). A completed fetch with no bytes is not treated as a
    failure: the empty [ArrayBuffer] is truthy, so it is written to R2 and
    served with status 200, and [Unable to fetch image] is never thrown. *)
Theorem empty_body_is_stored_and_served :
  let request := Sample.request [("src", Sample.src_jpg)] "" in
  let run := fetch Url.parse Sample.upstream_empty request Sample.env initial in
  check_source Url.parse (searchParams request)
  = Accepted Sample.url_jpg {| hostname := "s3.medialoot.com"; pathname := "/a.jpg" |} /\
  status (fst run) = 200 /\
  body (fst run) = BodyBuffer [] /\
  existsb is_bucket_put (events (snd run)) = true /\
  bucket (snd run) !! "test-https://s3.medialoot.com/a.jpg" = Some [].
Proof. cbv zeta. repeat split; vm_compute; reflexivity. Qed.

(** ** Format resolution *)

Lemma negotiated_type request :
  snd (parse_options request)
  = match negotiated (accept_of (req_headers request)) with
    | Some f => f
    | None => "jpeg"
    end.
Proof.
  unfold parse_options, negotiate, negotiated.
  destruct (Str.contains "image/avif" _); [reflexivity |].
  destruct (Str.contains "image/webp" _); reflexivity.
Qed.

Lemma served_type_png request u :
  Str.ends_with_ci ".png" (pathname u) = true -> served_type request u = "png".
Proof.
  intros H. unfold served_type, override_type. now rewrite H, (png_not_gif _ H).
Qed.

Lemma served_type_gif request u :
  Str.ends_with_ci ".gif" (pathname u) = true -> served_type request u = "gif".
Proof. intros H. unfold served_type, override_type. now rewrite H. Qed.

Lemma served_type_other request u :
  Str.ends_with_ci ".png" (pathname u) = false ->
  Str.ends_with_ci ".gif" (pathname u) = false ->
  served_type request u
  = match negotiated (accept_of (req_headers request)) with
    | Some f => f
    | None => "jpeg"
    end.
Proof.
  intros H1 H2. unfold served_type, override_type. rewrite H1, H2. apply negotiated_type.
Qed.

Lemma served_type_format request u : In (served_type request u) formats.
Proof.
  destruct (Str.ends_with_ci ".gif" (pathname u)) eqn:G.
  - rewrite served_type_gif by assumption. simpl. tauto.
  - destruct (Str.ends_with_ci ".png" (pathname u)) eqn:P.
    + rewrite served_type_png by assumption. simpl. tauto.
    + rewrite served_type_other by assumption. unfold negotiated.
      destruct (Str.contains "image/avif" _); [simpl; tauto |].
      destruct (Str.contains "image/webp" _); simpl; tauto.
Qed.

Lemma prefix_iff (p s : string) :
  Str.prefix p s = true <-> exists b, s = p +:+ b.
Proof.
  revert s. induction p as [|a p IH]; intros s.
  - simpl. split; [intros _; now exists s | reflexivity].
  - destruct s as [|c s]; simpl.
    + split; [discriminate | intros [b H]; rewrite append_cons in H; discriminate].
    + rewrite andb_true_iff, IH, Ascii.eqb_eq. split.
      * intros [-> [b ->]]. now exists b.
      * intros [b H]. rewrite append_cons in H. injection H as -> ->. eauto.
Qed.

Lemma contains_iff (m s : string) : Str.contains m s = true <-> occurs m s.
Proof.
  unfold occurs. induction s as [|c s IH]; simpl; rewrite orb_true_iff, prefix_iff.
  - split.
    + intros [[b H] | H]; [| discriminate]. now exists "", b.
    + intros ([|x a] & b & H); [left; now exists b |].
      rewrite append_cons in H. discriminate.
  - rewrite IH. split.
    + intros [[b H] | (a & b & ->)]; [now exists "", b |].
      now exists (String c a), b.
    + intros ([|x a] & b & H); [left; now exists b |].
      rewrite append_cons in H. injection H as -> ->. right. eauto.
Qed.

Lemma accept_of_header (h : Headers) :
  accept_of h = match headers_get "Accept" h with Some a => a | None => "" end.
Proof. unfold accept_of. destruct (headers_get "Accept" h) as [[|c a]|]; reflexivity. Qed.

(** C5. For a request that passes validation, the type is [png] when the
    pathname ends in [.png] and [gif] when it ends in [.gif] (letter case
    aside, as the handler's tests have it), whatever [Accept] says;
    otherwise [avif] if the text of the [Accept] header (empty when there
    is none) has [image/avif] in it, else [webp] if it has [image/webp] in
    it, else [jpeg]. It is one of the five formats, and it is the content
    type of every response the handler builds. *)
Theorem format_resolution url_parse image_fetch request env imageURL u w
    (valid : check_source url_parse (searchParams request) = Accepted imageURL u)
    (edge_miss : edge w !! url_href request = None) :
  let accept := accept_of (req_headers request) in
  let type := served_type request u in
  let response := fst (fetch url_parse image_fetch request env w) in
  (Str.ends_with_ci ".png" (pathname u) = true -> type = "png") /\
  (Str.ends_with_ci ".gif" (pathname u) = true -> type = "gif") /\
  (Str.ends_with_ci ".png" (pathname u) = false ->
   Str.ends_with_ci ".gif" (pathname u) = false ->
   type = if Str.contains "image/avif" accept then "avif"
          else if Str.contains "image/webp" accept then "webp"
          else "jpeg") /\
  In type formats /\
  (status response = 200 ->
   headers_get "content-type" (resp_headers response) = Some ("image/" +:+ type)) /\
  accept = match headers_get "Accept" (req_headers request) with
           | Some text => text
           | None => ""
           end /\
  (Str.ends_with_ci ".png" (pathname u) = false ->
   Str.ends_with_ci ".gif" (pathname u) = false ->
   (occurs "image/avif" accept -> type = "avif") /\
   (~ occurs "image/avif" accept -> occurs "image/webp" accept -> type = "webp") /\
   (~ occurs "image/avif" accept -> ~ occurs "image/webp" accept -> type = "jpeg")).
Proof.
  cbv zeta. split; [apply served_type_png |]. split; [apply served_type_gif |].
  split; [| split; [apply served_type_format |]].
  - intros H1 H2. rewrite served_type_other by assumption. unfold negotiated.
    destruct (Str.contains "image/avif" _); [reflexivity |].
    destruct (Str.contains "image/webp" _); reflexivity.
  - split; [| split; [apply accept_of_header |]].
    + destruct (bucket w !! cacheKey imageURL (resizeOptions request)) as [data|] eqn:B.
      * rewrite (fetch_of_run _ _ _ _ _ _ _
                   (run_bucket_hit _ image_fetch _ env _ _ valid w data edge_miss B)).
        intros _. apply content_type_of_image.
      * destruct (image_fetch imageURL (req_headers request) (resizeOptions request))
          as [res|] eqn:F.
        -- rewrite (fetch_of_run _ _ _ _ _ _ _
                      (run_fetch_completed _ _ _ env _ _ valid w res edge_miss B F)).
           intros _. apply content_type_of_image.
        -- rewrite (fetch_of_run _ _ _ _ _ _ _
                      (run_fetch_threw _ _ _ env _ _ valid w edge_miss B F)).
           cbn [fst status not_found]. discriminate.
    + intros H1 H2. rewrite served_type_other by assumption. unfold negotiated.
      rewrite <- !contains_iff.
      destruct (Str.contains "image/avif" _); [| destruct (Str.contains "image/webp" _)];
        repeat split; intros; congruence.
Qed.

Lemma format_resolution_witness :
  let jpg := {| hostname := "s3.medialoot.com"; pathname := "/a.jpg" |} in
  let png := {| hostname := "s3.medialoot.com"; pathname := "/a.png" |} in
  let webp_client := Sample.request [("src", Sample.src_jpg)] "image/webp" in
  served_type webp_client jpg = "webp" /\
  headers_get "content-type"
    (resp_headers (fst (fetch Url.parse Sample.upstream_ok webp_client Sample.env initial)))
  = Some "image/webp" /\
  served_type (Sample.request [("src", Sample.src_jpg)] "image/avif,image/webp") jpg = "avif" /\
  served_type (Sample.request [("src", Sample.src_jpg)] "text/html") jpg = "jpeg" /\
  served_type (Sample.request [("src", Sample.src_png)] "image/avif") png = "png".
Proof.
  cbv zeta.
  pose proof (format_resolution Url.parse Sample.upstream_ok
    (Sample.request [("src", Sample.src_jpg)] "image/webp") Sample.env
    Sample.url_jpg {| hostname := "s3.medialoot.com"; pathname := "/a.jpg" |} initial
    ltac:(vm_compute; reflexivity) ltac:(vm_compute; reflexivity))
    as (_ & _ & _ & _ & W5 & _ & W7).
  pose proof (format_resolution Url.parse Sample.upstream_ok
    (Sample.request [("src", Sample.src_jpg)] "image/avif,image/webp") Sample.env
    Sample.url_jpg {| hostname := "s3.medialoot.com"; pathname := "/a.jpg" |} initial
    ltac:(vm_compute; reflexivity) ltac:(vm_compute; reflexivity))
    as (_ & _ & _ & _ & _ & _ & A7).
  pose proof (format_resolution Url.parse Sample.upstream_ok
    (Sample.request [("src", Sample.src_jpg)] "text/html") Sample.env
    Sample.url_jpg {| hostname := "s3.medialoot.com"; pathname := "/a.jpg" |} initial
    ltac:(vm_compute; reflexivity) ltac:(vm_compute; reflexivity))
    as (_ & _ & _ & _ & _ & _ & J7).
  pose proof (format_resolution Url.parse Sample.upstream_ok
    (Sample.request [("src", Sample.src_png)] "image/avif") Sample.env
    Sample.url_png {| hostname := "s3.medialoot.com"; pathname := "/a.png" |} initial
    ltac:(vm_compute; reflexivity) ltac:(vm_compute; reflexivity))
    as (P1 & _).
  assert (absent : forall m text, Str.contains m text = false -> ~ occurs m text).
  { intros m text H O. apply contains_iff in O. congruence. }
  assert (webp : served_type (Sample.request [("src", Sample.src_jpg)] "image/webp")
                   {| hostname := "s3.medialoot.com"; pathname := "/a.jpg" |} = "webp").
  { apply W7; try reflexivity.
    - apply absent. vm_compute. reflexivity.
    - exists "", "". reflexivity. }
  split; [exact webp |].
  split; [rewrite W5 by (vm_compute; reflexivity); now rewrite webp |].
  split; [apply A7; try reflexivity; exists "", ",image/webp"; reflexivity |].
  split; [apply J7; try reflexivity; apply absent; vm_compute; reflexivity |].
  apply P1. vm_compute. reflexivity.
Defined.

Lemma obj_get_entry (k v : string) (o : Obj) :
  obj_get k o = Some v -> In (k, Some v) o.
Proof.
  induction o as [|[k0 v0] o IH]; simpl; [discriminate |].
  destruct (String.eqb k0 k) eqn:E.
  - apply String.eqb_eq in E. subst k0. intros ->. now left.
  - intros H. right. now apply IH.
Qed.

(** C10. The extension override touches the served type only: the [format]
    property of the options is what [Accept] selected, and these options
    are the ones serialized into the cache key and forwarded with the
    fetch, also when the pathname ends in [.png] or [.gif]. *)
Theorem extension_override_leaves_format url_parse image_fetch request env imageURL u w
    (valid : check_source url_parse (searchParams request) = Accepted imageURL u)
    (edge_miss : edge w !! url_href request = None)
    (bucket_miss : bucket w !! cacheKey imageURL (resizeOptions request) = None) :
  let options := resizeOptions request in
  let accept := accept_of (req_headers request) in
  let seen := new_events w (snd (fetch url_parse image_fetch request env w)) in
  obj_get "format" options = negotiated accept /\
  (forall f, negotiated accept = Some f ->
     (f = "avif" \/ f = "webp") /\ In ("format", Some f) options) /\
  In (BucketGet (cacheKey imageURL options)) seen /\
  In (ImageFetch imageURL (req_headers request) options) seen /\
  (Str.ends_with_ci ".png" (pathname u) = true -> served_type request u = "png") /\
  (Str.ends_with_ci ".gif" (pathname u) = true -> served_type request u = "gif").
Proof.
  cbv zeta. split; [apply options_format |]. split.
  { intros f Hf. split.
    - unfold negotiated in Hf.
      destruct (Str.contains "image/avif" _); [left; congruence |].
      destruct (Str.contains "image/webp" _); [right; congruence | discriminate].
    - apply obj_get_entry. now rewrite options_format. }
  split; [| split; [| split; [apply served_type_png | apply served_type_gif]]].
  - destruct (image_fetch imageURL (req_headers request) (resizeOptions request))
      as [res|] eqn:F.
    + rewrite (fetch_of_run _ _ _ _ _ _ _
                 (run_fetch_completed _ _ _ env _ _ valid w res edge_miss bucket_miss F)).
      cbn [snd]. rewrite new_events_app. simpl. tauto.
    + rewrite (fetch_of_run _ _ _ _ _ _ _
                 (run_fetch_threw _ _ _ env _ _ valid w edge_miss bucket_miss F)).
      cbn [snd]. rewrite new_events_app. simpl. tauto.
  - destruct (image_fetch imageURL (req_headers request) (resizeOptions request))
      as [res|] eqn:F.
    + rewrite (fetch_of_run _ _ _ _ _ _ _
                 (run_fetch_completed _ _ _ env _ _ valid w res edge_miss bucket_miss F)).
      cbn [snd]. rewrite new_events_app. simpl. tauto.
    + rewrite (fetch_of_run _ _ _ _ _ _ _
                 (run_fetch_threw _ _ _ env _ _ valid w edge_miss bucket_miss F)).
      cbn [snd]. rewrite new_events_app. simpl. tauto.
Qed.

Lemma extension_override_leaves_format_witness :
  let request := Sample.request [("src", Sample.src_png)] "image/avif" in
  let u := {| hostname := "s3.medialoot.com"; pathname := "/a.png" |} in
  served_type request u = "png" /\
  obj_get "format" (resizeOptions request) = Some "avif" /\
  In (ImageFetch Sample.url_png (req_headers request) [("format", Some "avif")])
     (new_events initial (snd (fetch Url.parse Sample.upstream_ok request Sample.env initial))).
Proof.
  cbv zeta.
  pose proof (extension_override_leaves_format Url.parse Sample.upstream_ok
    (Sample.request [("src", Sample.src_png)] "image/avif") Sample.env
    Sample.url_png {| hostname := "s3.medialoot.com"; pathname := "/a.png" |} initial
    ltac:(vm_compute; reflexivity) ltac:(vm_compute; reflexivity)
    ltac:(vm_compute; reflexivity)) as (H1 & _ & _ & H4 & H5 & _).
  split; [apply H5; vm_compute; reflexivity |].
  split; [exact H1 | exact H4].
Defined.

(** ** The [enlarge] alias and the origin of option values *)

Lemma alias_fires_iff (sp : SearchParams) :
  alias_fires sp (copy_params sp) = true <->
  (sp_get "fit" sp = None \/ sp_get "fit" sp = Some "") /\
  sp_get "enlarge" sp = Some "true".
Proof.
  rewrite alias_fires_params, andb_true_iff, negb_true_iff.
  now rewrite truthy_false, loosely_equals_true.
Qed.

(** C8, as the handler has it. Line 35 assigns [fit = 'cover'] exactly when
    the first [fit] value is absent or empty and the first [enlarge] value is
    [true]; then [fit] reads [cover] in the options, and otherwise the alias
    changes nothing and [fit] is what line 29 made it. *)
Theorem enlarge_alias_iff (request : Request) :
  let sp := searchParams request in
  let o := copy_params sp in
  (alias_fires sp o = true <->
   (sp_get "fit" sp = None \/ sp_get "fit" sp = Some "") /\
   sp_get "enlarge" sp = Some "true") /\
  (alias_fires sp o = true -> obj_get "fit" (resizeOptions request) = Some "cover") /\
  (alias_fires sp o = false ->
   enlarge_alias sp o = o /\
   obj_get "fit" (resizeOptions request) = or_undefined (sp_get "fit" sp)).
Proof.
  cbv zeta. split; [apply alias_fires_iff | split].
  - intros H. now rewrite options_fit, H.
  - intros H. split.
    + now rewrite enlarge_alias_fires, H.
    + now rewrite options_fit, H.
Qed.

(** C8 as stated fails: with [fit] present but empty the alias is applied. *)
Lemma enlarge_alias_with_fit_present :
  let sp := [("fit", ""); ("enlarge", "true")] in
  sp_has "fit" sp = true /\
  alias_fires sp (copy_params sp) = true /\
  enlarge_alias sp (copy_params sp) = [("fit", Some "cover")].
Proof. cbv zeta. repeat split. Qed.

(** Where a property name of the options can come from. *)
Lemma option_name_origin (request : Request) (k : string) :
  In k (key_order request) ->
  let sp := searchParams request in
  (k = "width" /\ sp_has "w" sp = true) \/
  (k = "height" /\ sp_has "h" sp = true) \/
  (k = "quality" /\ sp_has "q" sp = true) \/
  (k = "fit" /\ (sp_has "fit" sp = true \/ sp_get "enlarge" sp = Some "true")) \/
  (k = "format" /\ is_Some (negotiated (accept_of (req_headers request)))).
Proof.
  unfold key_order. cbv zeta.
  destruct (sp_has "fit" (searchParams request)),
           (sp_has "w" (searchParams request)),
           (sp_has "h" (searchParams request)),
           (sp_has "q" (searchParams request)),
           (loosely_equals (sp_get "enlarge" (searchParams request)) "true") eqn:L,
           (negotiated (accept_of (req_headers request)));
    try apply loosely_equals_true in L; simpl;
    intros H; repeat (destruct H as [<- | H]); try contradiction; eauto 12.
Qed.

(** Where a string held by the options can come from. *)
Lemma option_value_origin (request : Request) (k v : string) :
  In (k, Some v) (resizeOptions request) ->
  let sp := searchParams request in
  (k = "width" /\ sp_get "w" sp = Some v /\ v <> "") \/
  (k = "height" /\ sp_get "h" sp = Some v /\ v <> "") \/
  (k = "quality" /\ sp_get "q" sp = Some v /\ v <> "") \/
  (k = "fit" /\
   ((sp_get "fit" sp = Some v /\ v <> "") \/
    (v = "cover" /\ sp_get "enlarge" sp = Some "true" /\
     (sp_get "fit" sp = None \/ sp_get "fit" sp = Some "")))) \/
  (k = "format" /\ negotiated (accept_of (req_headers request)) = Some v).
Proof.
  intros Hin. cbv zeta.
  pose proof (entry_obj_get _ _ _ (resizeOptions_nodup request) Hin) as Hget.
  assert (Hk : In k option_keys).
  { apply (resizeOptions_keys request). apply (in_map fst) in Hin. exact Hin. }
  simpl in Hk. destruct Hk as [<- | [<- | [<- | [<- | [<- | []]]]]].
  - right; right; right; left. split; [reflexivity |].
    rewrite options_fit in Hget.
    destruct (alias_fires _ _) eqn:A.
    + right. injection Hget as <-.
      apply alias_fires_iff in A. tauto.
    + left. now apply or_undefined_some.
  - left. split; [reflexivity |]. rewrite options_width in Hget.
    now apply or_undefined_some.
  - right; left. split; [reflexivity |]. rewrite options_height in Hget.
    now apply or_undefined_some.
  - right; right; left. split; [reflexivity |]. rewrite options_quality in Hget.
    now apply or_undefined_some.
  - right; right; right; right. split; [reflexivity |].
    now rewrite <- (options_format request).
Qed.

(** C4, as the handler has it. The options hold a property only under one
    of the five names, and only if its query parameter is present ([fit]
    also when [enlarge] is [true], [format] when [Accept] selected one); a
    property holds a string only if that string is the parameter's first
    value and is not empty ([fit] may instead hold the [cover] of the
    alias); and a parameter whose first value is not empty gives its
    property that value. What a parameter that is present with an empty
    value leaves behind is not said here. *)
Theorem options_come_from_parameters (request : Request) :
  let sp := searchParams request in
  let o := resizeOptions request in
  (forall k, obj_has k o = true ->
     (k = "width" /\ sp_has "w" sp = true) \/
     (k = "height" /\ sp_has "h" sp = true) \/
     (k = "quality" /\ sp_has "q" sp = true) \/
     (k = "fit" /\ (sp_has "fit" sp = true \/ sp_get "enlarge" sp = Some "true")) \/
     (k = "format" /\ is_Some (negotiated (accept_of (req_headers request))))) /\
  (forall k v, In (k, Some v) o ->
     (k = "width" /\ sp_get "w" sp = Some v /\ v <> "") \/
     (k = "height" /\ sp_get "h" sp = Some v /\ v <> "") \/
     (k = "quality" /\ sp_get "q" sp = Some v /\ v <> "") \/
     (k = "fit" /\
      ((sp_get "fit" sp = Some v /\ v <> "") \/
       (v = "cover" /\ sp_get "enlarge" sp = Some "true" /\
        (sp_get "fit" sp = None \/ sp_get "fit" sp = Some "")))) \/
     (k = "format" /\ negotiated (accept_of (req_headers request)) = Some v)) /\
  (forall v, v <> "" ->
     (sp_get "w" sp = Some v -> In ("width", Some v) o) /\
     (sp_get "h" sp = Some v -> In ("height", Some v) o) /\
     (sp_get "q" sp = Some v -> In ("quality", Some v) o) /\
     (sp_get "fit" sp = Some v -> In ("fit", Some v) o)).
Proof.
  cbv zeta. split; [| split].
  - intros k H. apply option_name_origin.
    rewrite <- resizeOptions_names. now apply obj_has_names.
  - apply option_value_origin.
  - intros v Hv.
    assert (keep : forall x, x = Some v -> or_undefined x = Some v).
    { intros x ->. now apply or_undefined_some. }
    repeat split; intros H; apply obj_get_entry.
    + rewrite options_width. auto.
    + rewrite options_height. auto.
    + rewrite options_quality. auto.
    + rewrite options_fit, alias_fires_params, H.
      destruct v; [contradiction | reflexivity].
Qed.

Lemma options_come_from_parameters_witness :
  let request := Sample.request [("w", "300"); ("src", Sample.src_jpg)] "" in
  resizeOptions request = [("width", Some "300")] /\
  sp_get "w" (searchParams request) = Some "300" /\
  obj_has "height" (resizeOptions request) = false.
Proof.
  cbv zeta. split; [reflexivity |].
  destruct (options_come_from_parameters
              (Sample.request [("w", "300"); ("src", Sample.src_jpg)] ""))
    as (names & values & _).
  split.
  - destruct (values "width" "300" ltac:(left; reflexivity))
      as [(_ & H & _) | [(E & _) | [(E & _) | [(E & _) | (E & _)]]]];
      [exact H | discriminate E ..].
  - destruct (obj_has "height"
                (resizeOptions (Sample.request [("w", "300"); ("src", Sample.src_jpg)] "")))
      eqn:Has; [| reflexivity].
    destruct (names "height" Has)
      as [(E & _) | [(_ & H) | [(E & _) | [(E & _) | (E & _)]]]];
      [discriminate E | discriminate H | discriminate E ..].
Defined.

(** C4 as stated fails, twice. With [enlarge=true] and no [fit] parameter
    the options have a [fit] property. And a parameter that is present with
    an empty value leaves its property in the object, holding [undefined]
    (line 30 clears the value, not the property), and the cache key spells
    it out. *)
Lemma keys_beyond_their_parameters :
  let aliased := Sample.request [("enlarge", "true"); ("src", Sample.src_jpg)] "" in
  let emptied := Sample.request [("w", ""); ("src", Sample.src_jpg)] "" in
  (sp_has "fit" (searchParams aliased) = false /\
   obj_has "fit" (resizeOptions aliased) = true /\
   resizeOptions aliased = [("fit", Some "cover")] /\
   optionsKey (resizeOptions aliased) = "fit:cover") /\
  (sp_get "w" (searchParams emptied) = Some "" /\
   obj_has "width" (resizeOptions emptied) = true /\
   resizeOptions emptied = [("width", None)] /\
   cacheKey Sample.url_jpg (resizeOptions emptied)
   = "test-https://s3.medialoot.com/a.jpgwidth:undefined").
Proof. cbv zeta. repeat split; vm_compute; reflexivity. Qed.

(** ** The cache key *)

Lemma option_key_free (k : string) :
  In k option_keys -> Str.free_of "-" k = true /\ Str.free_of ":" k = true.
Proof.
  simpl. intros [<- | [<- | [<- | [<- | [<- | []]]]]]; split; reflexivity.
Qed.

Lemma template_plain (v : option string) :
  plain_value v = true -> Str.free_of "-" (template v) = true.
Proof.
  destruct v as [s|]; simpl; [| reflexivity].
  intros H. now apply andb_prop in H as [H _].
Qed.

Lemma template_inj (v1 v2 : option string) :
  plain_value v1 = true -> plain_value v2 = true ->
  template v1 = template v2 -> v1 = v2.
Proof.
  destruct v1 as [s1|], v2 as [s2|]; simpl; intros P1 P2 H.
  - now subst.
  - subst s1. apply andb_prop in P1 as [_ P1]. discriminate.
  - subst s2. apply andb_prop in P2 as [_ P2]. discriminate.
  - reflexivity.
Qed.

Lemma entry_word (kv : string * option string) :
  clean kv -> Str.free_of "-" (entry kv) = true /\ entry kv <> "".
Proof.
  intros [Hk Hv]. unfold entry. split.
  - rewrite !free_of_append. apply option_key_free in Hk as [-> _].
    now rewrite (template_plain _ Hv).
  - destruct (fst kv); discriminate.
Qed.

Lemma entry_inj (a b : string * option string) :
  clean a -> clean b -> entry a = entry b -> a = b.
Proof.
  destruct a as [k1 v1], b as [k2 v2]. unfold clean, entry. cbn [fst snd].
  intros [K1 P1] [K2 P2] H.
  apply option_key_free in K1 as [_ K1]. apply option_key_free in K2 as [_ K2].
  assert (D : forall t, delimited ":" (":" +:+ t)) by (intros t; right; eexists; reflexivity).
  destruct (split_unique ":" k1 k2 _ _ K1 K2 (D _) (D _) H) as [-> Hr].
  rewrite !append_cons, !append_nil in Hr. injection Hr as Hr.
  now rewrite (template_inj _ _ P1 P2 Hr).
Qed.

(** The serialization of clean option bags loses nothing. *)
Lemma optionsKey_inj (o1 o2 : Obj) :
  Forall clean o1 -> Forall clean o2 -> optionsKey o1 = optionsKey o2 -> o1 = o2.
Proof.
  intros C1 C2 H. unfold optionsKey in H.
  apply (join_inj "-") in H.
  - revert o2 C2 H. induction C1 as [|a o1 Ha C1 IH]; intros [|b o2] C2 H;
      try discriminate; [reflexivity |].
    simpl in H. injection H as Hab H.
    apply Forall_cons in C2 as [Hb C2].
    now rewrite (entry_inj _ _ Ha Hb Hab), (IH _ C2 H).
  - apply Forall_forall. intros s Hs. apply list_elem_of_In, in_map_iff in Hs as (kv & <- & Hkv).
    apply entry_word. rewrite Forall_forall in C1. apply C1. now apply list_elem_of_In.
  - apply Forall_forall. intros s Hs. apply list_elem_of_In, in_map_iff in Hs as (kv & <- & Hkv).
    apply entry_word. rewrite Forall_forall in C2. apply C2. now apply list_elem_of_In.
Qed.

Lemma resizeOptions_clean (request : Request) :
  plain (resizeOptions request) -> Forall clean (resizeOptions request).
Proof.
  unfold plain. rewrite !Forall_forall. intros P kv Hkv. split.
  - apply (resizeOptions_keys request). apply list_elem_of_In in Hkv.
    now apply (in_map fst) in Hkv.
  - now apply P.
Qed.

(** *** Telling the source from the options *)

Lemma lower_dot (c : ascii) : Ascii.eqb (Str.lower c) "." = Ascii.eqb c ".".
Proof. destruct c as [[] [] [] [] [] [] [] []]; reflexivity. Qed.

Lemma free_of_dot_lowercase (s : string) :
  Str.free_of "." (Str.lowercase s) = Str.free_of "." s.
Proof.
  induction s as [|c s IH]; simpl; [reflexivity |]. now rewrite lower_dot, IH.
Qed.

Lemma lowercase_append (a b : string) :
  Str.lowercase (a +:+ b) = Str.lowercase a +:+ Str.lowercase b.
Proof.
  induction a as [|c a IH]; [reflexivity |].
  rewrite append_cons. simpl. now rewrite IH, append_cons.
Qed.

Lemma lowercase_length (s : string) : String.length (Str.lowercase s) = String.length s.
Proof. induction s as [|c s IH]; simpl; [reflexivity | now rewrite IH]. Qed.

(** A suffix found in the lower-cased text is the lower case of a suffix. *)
Lemma ends_with_split (suf s : string) :
  Str.ends_with suf (Str.lowercase s) = true ->
  exists a b, s = a +:+ b /\ Str.lowercase b = suf.
Proof.
  induction s as [|c s IH]; simpl; rewrite orb_true_iff, String.eqb_eq.
  - intros [-> | H]; [| discriminate]. now exists "", "".
  - intros [-> | H].
    + now exists "", (String c s).
    + destruct (IH H) as (a & b & -> & Hb). now exists (String c a), b.
Qed.

(** A text that passes the extension test is a stem, a dot and the letters
    of an extension. *)
Lemma extension_split (u : string) :
  allowed_extension u = true ->
  exists stem ext,
    u = stem +:+ String "." ext /\
    In (Str.lowercase ext) extension_letters /\ Str.free_of "." ext = true.
Proof.
  unfold allowed_extension, Str.ends_with_ci. rewrite !orb_true_iff.
  assert (one : forall letters,
            In letters extension_letters ->
            Str.ends_with (String "." letters) (Str.lowercase u) = true ->
            exists stem ext,
              u = stem +:+ String "." ext /\
              In (Str.lowercase ext) extension_letters /\ Str.free_of "." ext = true).
  { intros letters Hl H. apply ends_with_split in H as (a & b & -> & Hb).
    destruct b as [|d ext]; [discriminate |]. simpl in Hb. injection Hb as Hd He.
    assert (d = "."%char) as ->.
    { apply Ascii.eqb_eq. rewrite <- lower_dot, Hd. reflexivity. }
    exists a, ext. split; [reflexivity |]. rewrite He. split; [exact Hl |].
    rewrite <- free_of_dot_lowercase, He.
    simpl in Hl. destruct Hl as [<- | [<- | [<- | [<- | [<- | []]]]]]; reflexivity. }
  intros [[[[H | H] | H] | H] | H]; (eapply one; [| exact H]); simpl; tauto.
Qed.

(** Splitting at the last occurrence of a character. *)
Lemma split_unique_last (c : ascii) (a b t1 t2 : string) :
  Str.free_of c t1 = true -> Str.free_of c t2 = true ->
  a +:+ String c t1 = b +:+ String c t2 -> a = b /\ t1 = t2.
Proof.
  intros F1 F2. revert b. induction a as [|x a IH]; intros [|y b] H;
    rewrite ?append_cons, ?append_nil in H.
  - injection H as ->. auto.
  - injection H as <- ->. rewrite free_of_append in F1. simpl in F1.
    rewrite Ascii.eqb_refl in F1. simpl in F1. rewrite andb_false_r in F1. discriminate.
  - injection H as -> <-. rewrite free_of_append in F2. simpl in F2.
    rewrite Ascii.eqb_refl in F2. simpl in F2. rewrite andb_false_r in F2. discriminate.
  - injection H as -> H. destruct (IH _ H) as [-> ->]. auto.
Qed.

Lemma append_same_length (a b x y : string) :
  String.length a = String.length b -> a +:+ x = b +:+ y -> a = b /\ x = y.
Proof.
  revert b. induction a as [|c a IH]; intros [|d b] L H; try discriminate.
  - auto.
  - rewrite !append_cons in H. injection H as -> H. injection L as L.
    destruct (IH _ L H) as [-> ->]. auto.
Qed.

(** The letters of two extensions, each followed by more text, agree only
    when the extensions are the same. *)
Lemma extension_letters_split (e1 e2 k1 k2 : string) :
  In (Str.lowercase e1) extension_letters -> In (Str.lowercase e2) extension_letters ->
  e1 +:+ k1 = e2 +:+ k2 -> e1 = e2 /\ k1 = k2.
Proof.
  intros L1 L2 H. apply append_same_length; [| exact H].
  apply (f_equal Str.lowercase) in H. rewrite !lowercase_append in H.
  rewrite <- (lowercase_length e1), <- (lowercase_length e2).
  generalize dependent (Str.lowercase k1). generalize dependent (Str.lowercase k2).
  intros K2 K1. simpl in L1, L2.
  destruct L1 as [<- | [<- | [<- | [<- | [<- | []]]]]];
    destruct L2 as [<- | [<- | [<- | [<- | [<- | []]]]]];
    intros H;
    first [reflexivity | exfalso; rewrite !append_cons in H; congruence].
Qed.

Lemma free_of_join (c : ascii) (sep : string) (l : list string) :
  Str.free_of c sep = true -> Forall (fun s => Str.free_of c s = true) l ->
  Str.free_of c (Str.join sep l) = true.
Proof.
  intros Hs F. induction F as [|x l Hx F IH]; [reflexivity |].
  rewrite join_cons. rewrite free_of_append, Hx. destruct l as [|y l]; [reflexivity |].
  unfold join_rest. now rewrite free_of_append, Hs, IH.
Qed.

Lemma tidy_plain (o : Obj) : tidy o -> plain o.
Proof.
  unfold tidy, plain. intros T. eapply Forall_impl; [exact T |].
  intros kv H. unfold tidy_value in H. now apply andb_prop in H as [H _].
Qed.

Lemma optionsKey_free_of_dot (request : Request) :
  tidy (resizeOptions request) ->
  Str.free_of "." (optionsKey (resizeOptions request)) = true.
Proof.
  intros T. unfold optionsKey. apply free_of_join; [reflexivity |].
  apply Forall_forall. intros s Hs.
  apply list_elem_of_In, in_map_iff in Hs as ([k v] & <- & Hkv).
  unfold tidy in T. rewrite Forall_forall in T.
  pose proof (T _ (proj2 (list_elem_of_In _ _) Hkv)) as Hv. cbn [snd] in Hv.
  assert (Hk : In k option_keys).
  { apply (resizeOptions_keys request). now apply (in_map fst) in Hkv. }
  unfold entry. cbn [fst snd]. rewrite !free_of_append.
  assert (Str.free_of "." k = true) as ->.
  { simpl in Hk. destruct Hk as [<- | [<- | [<- | [<- | [<- | []]]]]]; reflexivity. }
  unfold tidy_value in Hv. apply andb_prop in Hv as [_ Hv].
  destruct v as [t|]; [cbn [template]; now rewrite Hv | reflexivity].
Qed.

(** With sources that end in their extension and tidy option values, the
    cache key gives back the source and the options. *)
Lemma cacheKey_inj (r1 r2 : Request) (u1 u2 : string) :
  allowed_extension u1 = true -> allowed_extension u2 = true ->
  tidy (resizeOptions r1) -> tidy (resizeOptions r2) ->
  cacheKey u1 (resizeOptions r1) = cacheKey u2 (resizeOptions r2) ->
  u1 = u2 /\ resizeOptions r1 = resizeOptions r2.
Proof.
  intros E1 E2 T1 T2 H. unfold cacheKey in H. rewrite !append_assoc in H.
  apply append_cancel_l in H.
  apply extension_split in E1 as (s1 & e1 & -> & L1 & F1).
  apply extension_split in E2 as (s2 & e2 & -> & L2 & F2).
  rewrite !append_assoc, !append_cons in H.
  apply split_unique_last in H as [-> H].
  - apply extension_letters_split in H as [-> H]; [| assumption ..].
    split; [reflexivity |].
    apply optionsKey_inj; auto using resizeOptions_clean, tidy_plain.
  - now rewrite free_of_append, F1, optionsKey_free_of_dot.
  - now rewrite free_of_append, F2, optionsKey_free_of_dot.
Qed.

(** C2, as the handler has it. For two requests that pass validation, with
    decoded sources [u1], [u2] and option bags [o1], [o2] (the format that
    [Accept] selected included): when both sources end in their extension
    (nothing follows the pathname) and every option value is tidy (no [-]
    and no [.] in it, and not the text [undefined]), the keys are equal
    exactly when the sources are equal and the bags are equal. Whatever the
    sources are, equal bags give equal keys exactly when the sources are
    equal; and for one source and plain option values (no [-], not
    [undefined]), the keys are equal exactly when the bags are. *)
Theorem cache_key_determined url_parse r1 r2 u1 u2 p1 p2
    (valid1 : check_source url_parse (searchParams r1) = Accepted u1 p1)
    (valid2 : check_source url_parse (searchParams r2) = Accepted u2 p2) :
  let o1 := resizeOptions r1 in
  let o2 := resizeOptions r2 in
  (allowed_extension u1 = true -> allowed_extension u2 = true ->
   tidy o1 -> tidy o2 ->
   (cacheKey u1 o1 = cacheKey u2 o2 <-> u1 = u2 /\ o1 = o2)) /\
  (o1 = o2 -> (cacheKey u1 o1 = cacheKey u2 o2 <-> u1 = u2)) /\
  (u1 = u2 -> plain o1 -> plain o2 ->
   (cacheKey u1 o1 = cacheKey u2 o2 <-> o1 = o2)).
Proof.
  cbv zeta. split; [| split].
  - intros E1 E2 T1 T2. split; [now apply cacheKey_inj | now intros [-> ->]].
  - intros ->. split; [| now intros ->].
    unfold cacheKey. intros H.
    apply append_cancel_r in H. now apply append_cancel_l in H.
  - intros -> P1 P2. split; [| now intros ->].
    unfold cacheKey. intros H. apply append_cancel_l in H.
    apply optionsKey_inj; auto using resizeOptions_clean.
Qed.

Lemma cache_key_determined_witness :
  let r1 := Sample.request [("w", "1"); ("src", Sample.src_jpg)] "" in
  let r2 := Sample.request [("w", "2"); ("src", Sample.src_png)] "" in
  cacheKey Sample.url_jpg (resizeOptions r1) <> cacheKey Sample.url_png (resizeOptions r2).
Proof.
  cbv zeta. intros E.
  apply (proj1 (cache_key_determined Url.parse
    (Sample.request [("w", "1"); ("src", Sample.src_jpg)] "")
    (Sample.request [("w", "2"); ("src", Sample.src_png)] "")
    Sample.url_jpg Sample.url_png
    {| hostname := "s3.medialoot.com"; pathname := "/a.jpg" |}
    {| hostname := "s3.medialoot.com"; pathname := "/a.png" |}
    ltac:(vm_compute; reflexivity) ltac:(vm_compute; reflexivity))
    ltac:(vm_compute; reflexivity) ltac:(vm_compute; reflexivity)
    ltac:(repeat constructor) ltac:(repeat constructor)) in E.
  destruct E as [E _]. discriminate E.
Defined.

(** C2 as stated fails: requests that pass validation and differ in their
    source or their options get the same cache key, because nothing
    separates the source from the options and the entries from one another.
    A [-] in a value; a source that goes on after its extension; a [.] in a
    value; and the text [undefined] against an empty value. *)
Lemma cache_key_collision :
  let jpg := {| hostname := "s3.medialoot.com"; pathname := "/a.jpg" |} in
  let accepted sp imageURL u := check_source Url.parse sp = Accepted imageURL u in
  let key sp imageURL := cacheKey imageURL (resizeOptions (Sample.request sp "")) in
  (let sp1 := [("w", "1-height:2"); ("src", Sample.src_jpg)] in
   let sp2 := [("w", "1"); ("h", "2"); ("src", Sample.src_jpg)] in
   accepted sp1 Sample.url_jpg jpg /\ accepted sp2 Sample.url_jpg jpg /\
   resizeOptions (Sample.request sp1 "") = [("width", Some "1-height:2")] /\
   resizeOptions (Sample.request sp2 "") = [("width", Some "1"); ("height", Some "2")] /\
   key sp1 Sample.url_jpg = key sp2 Sample.url_jpg) /\
  (let sp1 := [("w", "1"); ("src", Cases.src_query)] in
   let sp2 := [("src", Cases.src_query_width)] in
   accepted sp1 "https://s3.medialoot.com/a.jpg?" jpg /\
   accepted sp2 "https://s3.medialoot.com/a.jpg?width:1" jpg /\
   key sp1 "https://s3.medialoot.com/a.jpg?" = key sp2 "https://s3.medialoot.com/a.jpg?width:1") /\
  (let sp1 := [("w", "1.jpg"); ("src", Sample.src_jpg)] in
   let sp2 := [("src", Cases.src_long_name)] in
   accepted sp1 Sample.url_jpg jpg /\
   accepted sp2 "https://s3.medialoot.com/a.jpgwidth:1.jpg"
     {| hostname := "s3.medialoot.com"; pathname := "/a.jpgwidth:1.jpg" |} /\
   key sp1 Sample.url_jpg = key sp2 "https://s3.medialoot.com/a.jpgwidth:1.jpg") /\
  (let sp1 := [("w", "undefined"); ("src", Sample.src_jpg)] in
   let sp2 := [("w", ""); ("src", Sample.src_jpg)] in
   accepted sp1 Sample.url_jpg jpg /\ accepted sp2 Sample.url_jpg jpg /\
   resizeOptions (Sample.request sp1 "") <> resizeOptions (Sample.request sp2 "") /\
   key sp1 Sample.url_jpg = key sp2 Sample.url_jpg).
Proof.
  cbv zeta. repeat split; try (vm_compute; reflexivity). vm_compute. discriminate.
Qed.

(** The key follows the option bag as a list, format included: the same
    query under another [Accept], and the same values reached through the
    alias (which appends [fit] instead of placing it first), give other
    keys. *)
Example same_values_other_keys :
  let sp := [("w", "1"); ("src", Sample.src_jpg)] in
  cacheKey Sample.url_jpg (resizeOptions (Sample.request sp "image/avif"))
  <> cacheKey Sample.url_jpg (resizeOptions (Sample.request sp "image/webp")) /\
  optionsKey (resizeOptions (Sample.request [("fit", "cover"); ("w", "1")] ""))
  = "fit:cover-width:1" /\
  optionsKey (resizeOptions (Sample.request [("w", "1"); ("enlarge", "true")] ""))
  = "width:1-fit:cover".
Proof. cbv zeta. split; [vm_compute; discriminate | split; vm_compute; reflexivity]. Qed.

(** * Further properties of the handler *)

(** ** Validation *)

Section Validation.

Variable url_parse : string -> option ParsedURL.
Variable image_fetch : string -> Headers -> Obj -> option Fetched.

Lemma run_rejected request env w r :
  check_source url_parse (searchParams request) = Rejected r ->
  run url_parse image_fetch request env w = (Returned r, w).
Proof.
  intros H. unfold run, handleRequest.
  destruct (parse_options request) as [o t]. now rewrite H.
Qed.

Lemma run_raised request env w e :
  check_source url_parse (searchParams request) = Raised e ->
  run url_parse image_fetch request env w = (Thrown e, w).
Proof.
  intros H. unfold run, handleRequest.
  destruct (parse_options request) as [o t]. now rewrite H.
Qed.

Lemma truthy_nonempty (s : string) : s <> "" -> truthy (Some s) = true.
Proof. destruct s; [contradiction | reflexivity]. Qed.

(** What [check_source] does with a source that decodes and parses. *)
Lemma check_source_parsed sp s d u :
  sp_get "src" sp = Some s -> s <> "" ->
  Base64.atob s = Some d -> url_parse d = Some u ->
  check_source url_parse sp = try_block d u.
Proof.
  intros Hs Hne Hd Hu. unfold check_source.
  rewrite Hs, (truthy_nonempty _ Hne), Hd, Hu. cbn [negb].
  unfold try_block.
  destruct (negb (allowed_extension (pathname u))); [reflexivity |].
  destruct (negb (String.eqb (hostname u) "s3.medialoot.com")); reflexivity.
Qed.

Lemma accepted_inv (sp : SearchParams) (imageURL : string) (u : ParsedURL) :
  check_source url_parse sp = Accepted imageURL u <->
  exists s, sp_get "src" sp = Some s /\ s <> "" /\
            Base64.atob s = Some imageURL /\ url_parse imageURL = Some u /\
            allowed_extension (pathname u) = true /\
            hostname u = "s3.medialoot.com".
Proof.
  split.
  - unfold check_source. destruct (sp_get "src" sp) as [s|] eqn:Hs; [| discriminate].
    destruct s as [|c s]; [discriminate |]. cbn [truthy negb].
    destruct (Base64.atob (String c s)) as [d|] eqn:Hd; [| discriminate].
    destruct (url_parse d) as [p|] eqn:Hp; [| discriminate].
    unfold try_block.
    destruct (allowed_extension (pathname p)) eqn:A; [| discriminate].
    destruct (String.eqb (hostname p) "s3.medialoot.com") eqn:E; [| discriminate].
    cbn [negb catch_block]. intros H. injection H as <- <-.
    exists (String c s). apply String.eqb_eq in E.
    split; [reflexivity |]. split; [discriminate |]. auto.
  - intros (s & Hs & Hne & Hd & Hu & A & E).
    rewrite (check_source_parsed _ _ _ _ Hs Hne Hd Hu). unfold try_block.
    rewrite A, E. reflexivity.
Qed.

(** X4. A request passes validation exactly when [src] is present and not
    empty, decodes, parses, its pathname has an allowed extension and its
    host is [s3.medialoot.com]; the accepted source and URL are the decoded
    and parsed ones. *)
Theorem accepted_iff (sp : SearchParams) (imageURL : string) (u : ParsedURL) :
  check_source url_parse sp = Accepted imageURL u <->
  exists s, sp_get "src" sp = Some s /\ s <> "" /\
            Base64.atob s = Some imageURL /\ url_parse imageURL = Some u /\
            allowed_extension (pathname u) = true /\
            hostname u = "s3.medialoot.com".
Proof. apply accepted_inv. Qed.

(** X1. Without [src], or with an empty one, the answer is 400 with the
    text [Missing "image" value], whatever the caches hold, and the world is
    left as it was. *)
Theorem missing_source_is_400 request env w
    (missing : sp_get "src" (searchParams request) = None \/
               sp_get "src" (searchParams request) = Some "") :
  fetch url_parse image_fetch request env w = (missing_image, w) /\
  status missing_image = 400.
Proof.
  split; [| reflexivity]. apply fetch_of_run, run_rejected.
  unfold check_source. destruct missing as [-> | ->]; reflexivity.
Qed.

(** X2. A source whose pathname has none of the allowed extensions is
    answered 400 [Disallowed file extension], whatever its host: the
    extension is tested before the host. *)
Theorem disallowed_extension_is_400 request env w s d u
    (present : sp_get "src" (searchParams request) = Some s)
    (nonempty : s <> "")
    (decoded : Base64.atob s = Some d)
    (parsed : url_parse d = Some u)
    (extension : allowed_extension (pathname u) = false) :
  fetch url_parse image_fetch request env w = (disallowed_extension, w) /\
  status disallowed_extension = 400.
Proof.
  split; [| reflexivity]. apply fetch_of_run, run_rejected.
  rewrite (check_source_parsed _ _ _ _ present nonempty decoded parsed).
  unfold try_block. now rewrite extension.
Qed.

(** X3. A source with an allowed extension on any host other than
    [s3.medialoot.com] is answered 403 [Invalid url for source images]. *)
Theorem foreign_host_is_403 request env w s d u
    (present : sp_get "src" (searchParams request) = Some s)
    (nonempty : s <> "")
    (decoded : Base64.atob s = Some d)
    (parsed : url_parse d = Some u)
    (extension : allowed_extension (pathname u) = true)
    (host : hostname u <> "s3.medialoot.com") :
  fetch url_parse image_fetch request env w = (invalid_host, w) /\
  status invalid_host = 403.
Proof.
  split; [| reflexivity]. apply fetch_of_run, run_rejected.
  rewrite (check_source_parsed _ _ _ _ present nonempty decoded parsed).
  unfold try_block. rewrite extension. cbn [negb].
  destruct (String.eqb (hostname u) "s3.medialoot.com") eqn:E; [| reflexivity].
  apply String.eqb_eq in E. contradiction.
Qed.

Lemma rejected_status (sp : SearchParams) (r : Response) :
  check_source url_parse sp = Rejected r -> status r = 400 \/ status r = 403.
Proof.
  unfold check_source.
  destruct (sp_get "src" sp) as [s|]; [| intros [= <-]; now left].
  destruct (negb (truthy (Some s))); [intros [= <-]; now left |].
  destruct (Base64.atob s) as [d|]; [| discriminate].
  destruct (url_parse d) as [p|]; [| discriminate].
  unfold try_block.
  destruct (negb (allowed_extension (pathname p))); [intros [= <-]; now left |].
  destruct (negb (String.eqb (hostname p) "s3.medialoot.com"));
    [intros [= <-]; now right | discriminate].
Qed.

(** X5. A request that does not pass validation has no effect at all: no
    cache is read or written, nothing is fetched, and the status is 400,
    403 or 500. *)
Theorem rejected_requests_have_no_effect request env w :
  (exists imageURL u,
     check_source url_parse (searchParams request) = Accepted imageURL u) \/
  (snd (fetch url_parse image_fetch request env w) = w /\
   In (status (fst (fetch url_parse image_fetch request env w))) [400; 403; 500]).
Proof.
  destruct (check_source url_parse (searchParams request)) as [r|e|d u] eqn:C.
  - right. rewrite (fetch_of_run _ _ _ _ _ _ _ (run_rejected _ env w _ C)).
    split; [reflexivity |]. cbn [fst].
    revert C. unfold check_source.
    destruct (sp_get "src" _) as [s|]; [| intros [= <-]; simpl; tauto].
    destruct (negb (truthy (Some s))); [intros [= <-]; simpl; tauto |].
    destruct (Base64.atob s) as [d|]; [| discriminate].
    destruct (url_parse d) as [p|]; [| discriminate].
    unfold try_block.
    destruct (negb (allowed_extension (pathname p))); [intros [= <-]; simpl; tauto |].
    destruct (negb (String.eqb (hostname p) "s3.medialoot.com"));
      [intros [= <-]; simpl; tauto | discriminate].
  - right. unfold fetch. rewrite (run_raised _ env w _ C). cbn [fst snd status text_response].
    split; [reflexivity | simpl; tauto].
  - left. eauto.
Qed.

End Validation.

Lemma missing_source_is_400_witness :
  fetch Url.parse Sample.upstream_ok (Sample.request [("w", "300")] "image/avif")
    Sample.env Sample.edge_warm
  = (missing_image, Sample.edge_warm).
Proof.
  refine (proj1 (missing_source_is_400 Url.parse Sample.upstream_ok
    (Sample.request [("w", "300")] "image/avif") Sample.env Sample.edge_warm _)).
  left. reflexivity.
Defined.

Lemma disallowed_extension_is_400_witness :
  fetch Url.parse Sample.upstream_ok (Sample.request [("src", Cases.src_bmp)] "")
    Sample.env initial = (disallowed_extension, initial) /\
  fetch Url.parse Sample.upstream_ok (Sample.request [("src", Cases.src_foreign_bmp)] "")
    Sample.env initial = (disallowed_extension, initial).
Proof.
  split.
  - refine (proj1 (disallowed_extension_is_400 Url.parse Sample.upstream_ok
      (Sample.request [("src", Cases.src_bmp)] "") Sample.env initial
      Cases.src_bmp "https://s3.medialoot.com/a.bmp"
      {| hostname := "s3.medialoot.com"; pathname := "/a.bmp" |} _ _ _ _ _));
      try discriminate; vm_compute; reflexivity.
  - refine (proj1 (disallowed_extension_is_400 Url.parse Sample.upstream_ok
      (Sample.request [("src", Cases.src_foreign_bmp)] "") Sample.env initial
      Cases.src_foreign_bmp "https://evil.example.com/a.bmp"
      {| hostname := "evil.example.com"; pathname := "/a.bmp" |} _ _ _ _ _));
      try discriminate; vm_compute; reflexivity.
Defined.

Lemma foreign_host_is_403_witness :
  fetch Url.parse Sample.upstream_ok (Sample.request [("src", Cases.src_foreign_png)] "")
    Sample.env initial = (invalid_host, initial).
Proof.
  refine (proj1 (foreign_host_is_403 Url.parse Sample.upstream_ok
    (Sample.request [("src", Cases.src_foreign_png)] "") Sample.env initial
    Cases.src_foreign_png "https://evil.example.com/a.png"
    {| hostname := "evil.example.com"; pathname := "/a.png" |} _ _ _ _ _ _));
    try discriminate; vm_compute; reflexivity.
Defined.


(** ** What a run leaves behind *)

(** A 200 built by the handler, and the world after it. *)
Lemma accepted_200 url_parse image_fetch request env imageURL u w :
  check_source url_parse (searchParams request) = Accepted imageURL u ->
  edge w !! url_href request = None ->
  status (fst (fetch url_parse image_fetch request env w)) = 200 ->
  exists data w1,
    let response := image_response env (served_type request u) data in
    fetch url_parse image_fetch request env w = (response, w1) /\
    edge w1 = <[url_href request := response]> (edge w) /\
    bucket w1 !! cacheKey imageURL (resizeOptions request) = Some data.
Proof.
  intros valid Miss.
  destruct (bucket w !! cacheKey imageURL (resizeOptions request)) as [data|] eqn:B.
  - rewrite (fetch_of_run _ _ _ _ _ _ _
               (run_bucket_hit _ image_fetch _ env _ _ valid w data Miss B)).
    intros _. eexists _, _. cbv zeta. split; [reflexivity |]. cbn [edge bucket]. auto.
  - destruct (image_fetch imageURL (req_headers request) (resizeOptions request))
      as [res|] eqn:F.
    + rewrite (fetch_of_run _ _ _ _ _ _ _
                 (run_fetch_completed _ _ _ env _ _ valid w res Miss B F)).
      intros _. eexists _, _. cbv zeta. split; [reflexivity |]. cbn [edge bucket].
      split; [reflexivity | apply lookup_insert_eq].
    + rewrite (fetch_of_run _ _ _ _ _ _ _
                 (run_fetch_threw _ _ _ env _ _ valid w Miss B F)).
      cbn [fst status not_found]. discriminate.
Qed.

(** X6. On an edge miss the answer is 404 exactly when the request passes
    validation, R2 has nothing under its cache key and the image fetch
    throws: no other path of the handler answers 404. *)
Theorem not_found_iff url_parse image_fetch request env w
    (edge_miss : edge w !! url_href request = None) :
  status (fst (fetch url_parse image_fetch request env w)) = 404 <->
  exists imageURL u,
    check_source url_parse (searchParams request) = Accepted imageURL u /\
    bucket w !! cacheKey imageURL (resizeOptions request) = None /\
    image_fetch imageURL (req_headers request) (resizeOptions request) = None.
Proof.
  destruct (check_source url_parse (searchParams request)) as [r0|e|d u] eqn:C.
  - rewrite (fetch_of_run _ _ _ _ _ _ _ (run_rejected _ image_fetch _ env w _ C)).
    cbn [fst]. split; [| intros (d & u & H' & _); discriminate].
    intros E. destruct (rejected_status _ _ _ C) as [H | H]; rewrite E in H; discriminate.
  - unfold fetch. rewrite (run_raised _ image_fetch _ env w _ C). cbn [fst status text_response].
    split; [discriminate | intros (d & u & H' & _); discriminate].
  - destruct (bucket w !! cacheKey d (resizeOptions request)) as [data|] eqn:B.
    + rewrite (fetch_of_run _ _ _ _ _ _ _
                 (run_bucket_hit _ image_fetch _ env _ _ C w data edge_miss B)).
      cbn [fst status image_response].
      split; [discriminate | intros (d' & u' & [= <- <-] & B' & _); congruence].
    + destruct (image_fetch d (req_headers request) (resizeOptions request)) as [res|] eqn:F.
      * rewrite (fetch_of_run _ _ _ _ _ _ _
                   (run_fetch_completed _ _ _ env _ _ C w res edge_miss B F)).
        cbn [fst status image_response].
        split; [discriminate | intros (d' & u' & [= <- <-] & _ & F'); congruence].
      * rewrite (fetch_of_run _ _ _ _ _ _ _
                   (run_fetch_threw _ _ _ env _ _ C w edge_miss B F)).
        cbn [fst status not_found]. split; [eauto 6 | reflexivity].
Qed.

Lemma not_found_iff_witness :
  status (fst (fetch Url.parse Sample.upstream_down Cases.resized Sample.env initial)) = 404 /\
  status (fst (fetch Url.parse Sample.upstream_ok Cases.resized Sample.env initial)) <> 404.
Proof.
  split.
  - apply (proj2 (not_found_iff Url.parse Sample.upstream_down Cases.resized Sample.env
      initial ltac:(vm_compute; reflexivity))).
    exists Sample.url_jpg, Cases.jpg. repeat split; vm_compute; reflexivity.
  - intros E.
    apply (proj1 (not_found_iff Url.parse Sample.upstream_ok Cases.resized Sample.env
      initial ltac:(vm_compute; reflexivity))) in E.
    destruct E as (d & u & _ & _ & F). discriminate F.
Defined.

(** X7. A 200 the handler builds carries four headers and no other: a
    public [cache-control] whose [max-age] is [CACHE_DURATION] when
    configured (zero included) and 15552000 seconds (180 days) otherwise,
    the open CORS header, the content security policy and the content
    type. [CACHE_DURATION] is a whole number below 10^21 in magnitude. *)
Theorem built_response_headers url_parse image_fetch request env imageURL u w
    (valid : check_source url_parse (searchParams request) = Accepted imageURL u)
    (edge_miss : edge w !! url_href request = None)
    (ok : status (fst (fetch url_parse image_fetch request env w)) = 200)
    (range : match CACHE_DURATION env with
             | Some seconds => - 10 ^ 21 < seconds < 10 ^ 21
             | None => True
             end) :
  let headers := resp_headers (fst (fetch url_parse image_fetch request env w)) in
  (forall name, In name (map fst headers) <->
     In name ["cache-control"; "access-control-allow-origin";
              "content-security-policy"; "content-type"]) /\
  headers_get "cache-control" headers
  = Some ("public, max-age=" +:+
          match CACHE_DURATION env with
          | Some seconds => pretty seconds
          | None => "15552000"
          end) /\
  headers_get "access-control-allow-origin" headers = Some "*" /\
  headers_get "content-security-policy" headers
  = Some "default-src 'none'; navigate-to 'none'; form-action 'none'" /\
  headers_get "content-type" headers = Some ("image/" +:+ served_type request u).
Proof.
  cbv zeta.
  destruct (accepted_200 _ _ _ _ _ _ _ valid edge_miss ok) as (data & w1 & -> & _).
  cbn [fst resp_headers image_response]. clear range.
  split; [intros name; simpl; tauto |].
  unfold image_headers. destruct (CACHE_DURATION env) as [d|];
    (split; [reflexivity |]); (split; [reflexivity |]); split; reflexivity.
Qed.

Lemma built_response_headers_witness :
  headers_get "cache-control"
    (resp_headers (fst (fetch Url.parse Sample.upstream_ok Cases.resized Cases.env_hour initial)))
  = Some "public, max-age=3600" /\
  headers_get "cache-control"
    (resp_headers (fst (fetch Url.parse Sample.upstream_ok Cases.resized Sample.env initial)))
  = Some "public, max-age=15552000".
Proof.
  split.
  - refine (proj1 (proj2 (built_response_headers Url.parse Sample.upstream_ok Cases.resized
      Cases.env_hour Sample.url_jpg Cases.jpg initial _ _ _ _)));
      [vm_compute; reflexivity .. | simpl; lia].
  - refine (proj1 (proj2 (built_response_headers Url.parse Sample.upstream_ok Cases.resized
      Sample.env Sample.url_jpg Cases.jpg initial _ _ _ _)));
      [vm_compute; reflexivity .. | exact I].
Defined.

(** X8. The entry the handler writes to the edge cache when it builds a
    200 is stored under the request URL and is the response it returned.
    So a request with the same URL that runs while the cache still holds
    that entry (whether it does is the cache's business: expiry under the
    stored [cache-control], eviction) gets that response back as it is,
    whatever its headers, the configuration and the upstream then are, and
    the edge lookup is its only effect. *)
Theorem repeat_is_served_from_edge url_parse image_fetch image_fetch' request request'
    env env' imageURL u w w'
    (valid : check_source url_parse (searchParams request) = Accepted imageURL u)
    (edge_miss : edge w !! url_href request = None)
    (ok : status (fst (fetch url_parse image_fetch request env w)) = 200)
    (same_url : url_href request' = url_href request)
    (same_query : searchParams request' = searchParams request)
    (still_cached :
       edge w' !! url_href request
       = edge (snd (fetch url_parse image_fetch request env w)) !! url_href request) :
  let first := fetch url_parse image_fetch request env w in
  let second := fetch url_parse image_fetch' request' env' w' in
  edge (snd first) !! url_href request = Some (fst first) /\
  fst second = fst first /\
  new_events w' (snd second) = [EdgeMatch (url_href request)] /\
  edge (snd second) = edge w' /\
  bucket (snd second) = bucket w'.
Proof.
  cbv zeta. revert still_cached.
  destruct (accepted_200 _ _ _ _ _ _ _ valid edge_miss ok) as (data & w1 & -> & E & _).
  cbn [fst snd]. rewrite E, lookup_insert_eq. intros Hit.
  rewrite <- same_query in valid. rewrite <- same_url in Hit.
  rewrite (fetch_of_run _ _ _ _ _ _ _
             (run_edge_hit _ image_fetch' _ env' _ _ valid w' _ Hit)).
  cbn [fst snd edge bucket]. rewrite new_events_app, same_url. auto.
Qed.

Lemma repeat_is_served_from_edge_witness :
  let first := fetch Url.parse Sample.upstream_ok Cases.resized Sample.env initial in
  let second := fetch Url.parse Sample.upstream_down Cases.resized_plain Cases.env_hour (snd first) in
  fst second = fst first /\
  headers_get "content-type" (resp_headers (fst second)) = Some "image/webp".
Proof.
  cbv zeta. split; [| vm_compute; reflexivity].
  refine (proj1 (proj2 (repeat_is_served_from_edge Url.parse Sample.upstream_ok
    Sample.upstream_down Cases.resized Cases.resized_plain Sample.env Cases.env_hour
    Sample.url_jpg Cases.jpg initial _ _ _ _ _ _ eq_refl)));
    vm_compute; reflexivity.
Defined.

(** X9. What a completed fetch stored in R2 serves a later request for the
    same decoded source and the same options under another request URL:
    the stored bytes are the body, with status 200, and nothing is fetched. *)
Theorem stored_image_is_reused url_parse image_fetch image_fetch' request request'
    env env' imageURL u w res
    (valid : check_source url_parse (searchParams request) = Accepted imageURL u)
    (edge_miss : edge w !! url_href request = None)
    (bucket_miss : bucket w !! cacheKey imageURL (resizeOptions request) = None)
    (completed : image_fetch imageURL (req_headers request) (resizeOptions request) = Some res)
    (valid' : check_source url_parse (searchParams request') = Accepted imageURL u)
    (same_options : resizeOptions request' = resizeOptions request)
    (other_url : url_href request' <> url_href request)
    (edge_miss' : edge w !! url_href request' = None) :
  let first := fetch url_parse image_fetch request env w in
  let second := fetch url_parse image_fetch' request' env' (snd first) in
  status (fst second) = 200 /\
  body (fst second) = BodyBuffer (fetched_body res) /\
  existsb is_image_fetch (new_events (snd first) (snd second)) = false /\
  bucket (snd second) = bucket (snd first).
Proof.
  cbv zeta.
  rewrite (fetch_of_run _ _ _ _ _ _ _
             (run_fetch_completed _ _ _ env _ _ valid w res edge_miss bucket_miss completed)).
  cbn [snd].
  match goal with |- context [fetch _ _ _ _ ?w1] => set (w1' := w1) end.
  assert (Miss : edge w1' !! url_href request' = None).
  { subst w1'. cbn [edge]. rewrite lookup_insert_ne by congruence. exact edge_miss'. }
  assert (Hit : bucket w1' !! cacheKey imageURL (resizeOptions request')
                = Some (fetched_body res)).
  { subst w1'. cbn [bucket]. rewrite same_options. apply lookup_insert_eq. }
  rewrite (fetch_of_run _ _ _ _ _ _ _
             (run_bucket_hit _ image_fetch' _ env' _ _ valid' w1' _ Miss Hit)).
  cbn [fst snd status body image_response bucket]. rewrite new_events_app.
  repeat split.
Qed.

Lemma stored_image_is_reused_witness :
  let first := fetch Url.parse Sample.upstream_ok Cases.resized Sample.env initial in
  let second := fetch Url.parse Sample.upstream_down Cases.resized_again Sample.env (snd first) in
  url_href Cases.resized_again <> url_href Cases.resized /\
  body (fst second) = BodyBuffer Sample.pixels.
Proof.
  cbv zeta. split; [discriminate |].
  refine (proj1 (proj2 (stored_image_is_reused Url.parse Sample.upstream_ok Sample.upstream_down
    Cases.resized Cases.resized_again Sample.env Sample.env Sample.url_jpg Cases.jpg initial
    {| fetched_status := 200; fetched_body := Sample.pixels |} _ _ _ _ _ _ _ _)));
    try discriminate; vm_compute; reflexivity.
Defined.

(** X11. A fetch that throws is not remembered: both caches are left as
    they were, and the same request, once the upstream answers, is served
    its body with status 200. *)
Theorem failure_is_not_cached url_parse image_fetch image_fetch' request env imageURL u w res
    (valid : check_source url_parse (searchParams request) = Accepted imageURL u)
    (edge_miss : edge w !! url_href request = None)
    (bucket_miss : bucket w !! cacheKey imageURL (resizeOptions request) = None)
    (threw : image_fetch imageURL (req_headers request) (resizeOptions request) = None)
    (back : image_fetch' imageURL (req_headers request) (resizeOptions request) = Some res) :
  let first := fetch url_parse image_fetch request env w in
  let second := fetch url_parse image_fetch' request env (snd first) in
  edge (snd first) = edge w /\
  bucket (snd first) = bucket w /\
  status (fst second) = 200 /\
  body (fst second) = BodyBuffer (fetched_body res).
Proof.
  cbv zeta.
  rewrite (fetch_of_run _ _ _ _ _ _ _
             (run_fetch_threw _ _ _ env _ _ valid w edge_miss bucket_miss threw)).
  cbn [snd edge bucket].
  match goal with |- context [fetch _ _ _ _ ?w1] => set (w1' := w1) end.
  rewrite (fetch_of_run _ _ _ _ _ _ _
             (run_fetch_completed _ _ _ env _ _ valid w1' res edge_miss bucket_miss back)).
  repeat split.
Qed.

Lemma failure_is_not_cached_witness :
  let first := fetch Url.parse Sample.upstream_down Cases.resized Sample.env initial in
  let second := fetch Url.parse Sample.upstream_ok Cases.resized Sample.env (snd first) in
  status (fst first) = 404 /\ status (fst second) = 200.
Proof.
  cbv zeta. split; [vm_compute; reflexivity |].
  refine (proj1 (proj2 (proj2 (failure_is_not_cached Url.parse Sample.upstream_down
    Sample.upstream_ok Cases.resized Sample.env Sample.url_jpg Cases.jpg initial
    {| fetched_status := 200; fetched_body := Sample.pixels |} _ _ _ _ _))));
    vm_compute; reflexivity.
Defined.

(** X10. The handler never removes or replaces what a cache holds: every
    R2 object and every edge entry present before a request is there, the
    same, after it. *)
Theorem caches_only_grow url_parse image_fetch request env w (k : string) :
  let after := snd (fetch url_parse image_fetch request env w) in
  (forall data, bucket w !! k = Some data -> bucket after !! k = Some data) /\
  (forall r, edge w !! k = Some r -> edge after !! k = Some r).
Proof.
  cbv zeta.
  destruct (check_source url_parse (searchParams request)) as [r0|e|d u] eqn:C.
  - rewrite (fetch_of_run _ _ _ _ _ _ _ (run_rejected _ image_fetch _ env w _ C)). auto.
  - unfold fetch. rewrite (run_raised _ image_fetch _ env w _ C). auto.
  - destruct (edge w !! url_href request) as [r0|] eqn:E.
    { rewrite (fetch_of_run _ _ _ _ _ _ _ (run_edge_hit _ image_fetch _ env _ _ C w r0 E)).
      auto. }
    assert (Fresh : forall r (v : Response), edge w !! k = Some r ->
                      <[url_href request := v]> (edge w) !! k = Some r).
    { intros r v H. rewrite lookup_insert_ne; [exact H | congruence]. }
    destruct (bucket w !! cacheKey d (resizeOptions request)) as [data|] eqn:B.
    { rewrite (fetch_of_run _ _ _ _ _ _ _
                 (run_bucket_hit _ image_fetch _ env _ _ C w data E B)).
      cbn [snd edge bucket]. auto. }
    destruct (image_fetch d (req_headers request) (resizeOptions request)) as [res|] eqn:F.
    + rewrite (fetch_of_run _ _ _ _ _ _ _
                 (run_fetch_completed _ _ _ env _ _ C w res E B F)).
      cbn [snd edge bucket]. split; [| auto].
      intros data H. rewrite lookup_insert_ne; [exact H | congruence].
    + rewrite (fetch_of_run _ _ _ _ _ _ _ (run_fetch_threw _ _ _ env _ _ C w E B F)).
      cbn [snd edge bucket]. auto.
Qed.

(** ** The shape of the option bag *)

(** X12. The property names of the options, in order: [fit], [width],
    [height], [quality] for the parameters that are present, then [fit]
    when the alias created it, then [format] when [Accept] selected one. So
    [fit] set by the alias alone is serialized after the sizes, not first,
    and no name occurs twice. *)
Theorem option_key_order (request : Request) :
  map fst (resizeOptions request) = key_order request /\
  NoDup (key_order request).
Proof.
  split; [apply resizeOptions_names |].
  rewrite <- resizeOptions_names. apply resizeOptions_nodup.
Qed.

(** X13. Two requests that pass validation with the same decoded source
    and the same options, and so read and write the same R2 object, have
    the same type; whenever the handler itself builds their responses (edge
    miss, status 200) both carry that type as their content type. An edge
    hit is not the handler's response: it carries whatever type was stored
    under that URL. *)
Theorem served_type_determined url_parse request request' imageURL u u'
    (valid : check_source url_parse (searchParams request) = Accepted imageURL u)
    (valid' : check_source url_parse (searchParams request') = Accepted imageURL u')
    (same_options : resizeOptions request' = resizeOptions request) :
  u' = u /\
  served_type request' u' = served_type request u /\
  forall image_fetch image_fetch' env env' w w',
    let response := fst (fetch url_parse image_fetch request env w) in
    let response' := fst (fetch url_parse image_fetch' request' env' w') in
    edge w !! url_href request = None -> edge w' !! url_href request' = None ->
    status response = 200 -> status response' = 200 ->
    headers_get "content-type" (resp_headers response)
    = Some ("image/" +:+ served_type request u) /\
    headers_get "content-type" (resp_headers response')
    = Some ("image/" +:+ served_type request u).
Proof.
  assert (U : u' = u).
  { apply accepted_inv in valid as (s & _ & _ & _ & P & _).
    apply accepted_inv in valid' as (s' & _ & _ & _ & P' & _). congruence. }
  subst u'.
  assert (T : served_type request' u = served_type request u).
  { unfold served_type. rewrite !negotiated_type.
    now rewrite <- !options_format, same_options. }
  split; [reflexivity |]. split; [exact T |].
  intros image_fetch image_fetch' env env' w w'. cbv zeta. intros M M' K K'.
  destruct (accepted_200 _ _ _ _ _ _ _ valid M K) as (data & w1 & -> & _).
  destruct (accepted_200 _ _ _ _ _ _ _ valid' M' K') as (data' & w1' & -> & _).
  cbn [fst]. rewrite !content_type_of_image, T. auto.
Qed.

Lemma served_type_determined_witness :
  let first := fetch Url.parse Sample.upstream_ok Cases.resized Sample.env initial in
  let second := fetch Url.parse Sample.upstream_down Cases.resized_again Cases.env_hour (snd first) in
  headers_get "content-type" (resp_headers (fst first)) = Some "image/webp" /\
  headers_get "content-type" (resp_headers (fst second)) = Some "image/webp".
Proof.
  cbv zeta.
  destruct (served_type_determined Url.parse Cases.resized Cases.resized_again
    Sample.url_jpg Cases.jpg Cases.jpg
    ltac:(vm_compute; reflexivity) ltac:(vm_compute; reflexivity)
    ltac:(vm_compute; reflexivity)) as (_ & _ & H).
  apply (H Sample.upstream_ok Sample.upstream_down Sample.env Cases.env_hour initial
           (snd (fetch Url.parse Sample.upstream_ok Cases.resized Sample.env initial)));
    vm_compute; reflexivity.
Defined.

(** ** Effects per request *)

(** X14. In one request the image fetch is called at most once; R2 is
    written only in a request that fetched, and the edge cache is written
    only in a request that is answered 200. *)
Theorem effects_are_bounded url_parse image_fetch request env w :
  let answer := fetch url_parse image_fetch request env w in
  let seen := new_events w (snd answer) in
  (length (List.filter is_image_fetch seen) <= 1)%nat /\
  (existsb is_bucket_put seen = true -> existsb is_image_fetch seen = true) /\
  (existsb is_edge_put seen = true -> status (fst answer) = 200).
Proof.
  cbv zeta.
  assert (Nil : new_events w w = []).
  { unfold new_events. apply drop_all. }
  destruct (check_source url_parse (searchParams request)) as [r0|e|d u] eqn:C.
  - rewrite (fetch_of_run _ _ _ _ _ _ _ (run_rejected _ image_fetch _ env w _ C)).
    cbn [fst snd]. rewrite Nil. simpl. repeat split; (lia || discriminate).
  - unfold fetch. rewrite (run_raised _ image_fetch _ env w _ C).
    cbn [fst snd]. rewrite Nil. simpl. repeat split; (lia || discriminate).
  - destruct (edge w !! url_href request) as [r0|] eqn:E.
    { rewrite (fetch_of_run _ _ _ _ _ _ _ (run_edge_hit _ image_fetch _ env _ _ C w r0 E)).
      cbn [fst snd]. rewrite new_events_app. simpl. repeat split; (lia || discriminate). }
    destruct (bucket w !! cacheKey d (resizeOptions request)) as [data|] eqn:B.
    { rewrite (fetch_of_run _ _ _ _ _ _ _
                 (run_bucket_hit _ image_fetch _ env _ _ C w data E B)).
      cbn [fst snd]. rewrite new_events_app. simpl.
      split; [lia |]. split; [discriminate | reflexivity]. }
    destruct (image_fetch d (req_headers request) (resizeOptions request)) as [res|] eqn:F.
    + rewrite (fetch_of_run _ _ _ _ _ _ _
                 (run_fetch_completed _ _ _ env _ _ C w res E B F)).
      cbn [fst snd]. rewrite new_events_app. simpl.
      split; [lia |]. split; reflexivity.
    + rewrite (fetch_of_run _ _ _ _ _ _ _ (run_fetch_threw _ _ _ env _ _ C w E B F)).
      cbn [fst snd]. rewrite new_events_app. simpl.
      split; [lia |]. split; [reflexivity | discriminate].
Qed.
